(** * KinematicBicycleModel: path curve construction and vehicle pose transform

    A shallow embedding of [src/tools.py], [src/description.py] and
    [src/path.py].  Of [src/path.py] the track generators and the
    constructor of [CircularPath] are embedded, the latter on the rows read
    from the track file; the script that writes a track file is not.

    Numbers.  The Python code computes on binary64 floats through numpy, scipy
    and libm.  The embedding is written once over an interface [FloatOps] of
    the operations the code uses; nothing is assumed about them, so every
    statement proved over the interface holds for whatever arithmetic is
    plugged in.  Statements that need arithmetic facts (chord lengths,
    concrete positions) are proved for the instance [R_ops] of real numbers,
    the arithmetic the code approximates.  The number of samples is not such
    a statement: [np.arange] takes the ceiling of a quotient that the code
    has rounded, so the count is stated over the interface, in terms of the
    quotient and the ceiling of the arithmetic plugged in.

    Arrays.  An [ndarray] is a vector or a matrix given by its rows together
    with its column count, so that the shape of an empty matrix survives a
    transposition.  In [src/description.py] arrays are updated in place, so
    there every array bound to a name or to an attribute lives at a location
    of a store and attributes hold locations; unnamed temporaries are plain
    values.  [src/tools.py] never updates in place and is embedded on values. *)

From Stdlib Require Import ZArith QArith Reals Lra Lia.
From stdpp Require Import base list strings.

(** ** Exceptions and results *)

Inductive exn : Type :=
| ValueError (msg : string)
| TypeError (msg : string)
| IndexError (msg : string)
| AttributeError (msg : string).

Inductive outcome (A : Type) : Type :=
| Ret (a : A)
| Raise (e : exn).
Arguments Ret {A} a.
Arguments Raise {A} e.

#[export] Instance outcome_ret : MRet outcome := fun A a => Ret a.
#[export] Instance outcome_bind : MBind outcome := fun A B f c =>
  match c with
  | Ret a => f a
  | Raise e => Raise e
  end.

(** [try: c except ValueError as e: h e] *)
Definition try_except_ValueError {A} (c : outcome A) (h : string → outcome A) : outcome A :=
  match c with
  | Raise (ValueError msg) => h msg
  | _ => c
  end.

Definition is_Raise {A} (c : outcome A) : Prop :=
  match c with
  | Raise _ => True
  | Ret _ => False
  end.

(** ** The arithmetic the code runs on *)

Class FloatOps (F : Type) : Type := {
  lit : Q → F;                (* a numeric literal of the source *)
  fadd : F → F → F;
  fsub : F → F → F;
  fmul : F → F → F;
  fdiv : F → F → F;
  fneg : F → F;
  fpow : F → F → F;           (* [**] *)
  fcos : F → F;
  fsin : F → F;
  fatan2 : F → F → F;
  fhypot : F → F → F;
  fpi : F;
  fle : F → F → bool;         (* [<=] *)
  feqb : F → F → bool;        (* [==] *)
  fisfinite : F → bool;
  fallclose : F → F → bool;   (* [np.allclose] on scalars *)
  fceil : F → option Z        (* [None]: not a finite number *)
}.

Declare Scope flt_scope.
Delimit Scope flt_scope with flt.
Infix "+" := fadd : flt_scope.
Infix "-" := fsub : flt_scope.
Infix "*" := fmul : flt_scope.
Infix "/" := fdiv : flt_scope.
Notation "- x" := (fneg x) : flt_scope.
Infix "**" := fpow (at level 30, right associativity) : flt_scope.

Definition of_nat `{FloatOps F} (n : nat) : F := lit (inject_Z (Z.of_nat n)).

(** ** numpy arrays as values *)

Inductive ndarray (F : Type) : Type :=
| Vec (v : list F)
| Mat (ncols : nat) (rows : list (list F)).
Arguments Vec {F} v.
Arguments Mat {F} ncols rows.

Module np.
Section Numpy.
Context `{FloatOps F}.
Local Open Scope flt_scope.

Definition zeros (n : nat) : list F := replicate n (lit 0).

(** [np.ediff1d(x)] is [x[1:] - x[:-1]]. *)
Definition ediff1d (x : list F) : list F :=
  zip_with (fun a b => b - a) x (tail x).

Definition hypot (a b : list F) : list F := zip_with fhypot a b.

Fixpoint cumsum_from (acc : F) (l : list F) : list F :=
  match l with
  | [] => []
  | h :: t => (acc + h) :: cumsum_from (acc + h) t
  end.

Definition cumsum (l : list F) : list F :=
  match l with
  | [] => []
  | h :: t => h :: cumsum_from h t
  end.

(** [a[-1]] on a one-dimensional array. *)
Definition item_last (a : list F) : outcome F :=
  match last a with
  | Some v => Ret v
  | None => Raise (IndexError "index -1 is out of bounds for axis 0 with size 0")
  end.

(** [np.array(rows)] for a list of equally long rows; ragged rows are
    refused. *)
Definition array2 (rows : list (list F)) : outcome (ndarray F) :=
  match rows with
  | [] => Ret (Vec [])
  | r :: rs =>
      if forallb (fun r' => Nat.eqb (length r') (length r)) rs
      then Ret (Mat (length r) rows)
      else Raise (ValueError "setting an array element with a sequence. The requested array has an inhomogeneous shape")
  end.

Definition column (j : nat) (rows : list (list F)) : list F :=
  map (fun r => nth j r (lit 0)) rows.

(** [a.T] *)
Definition T (a : ndarray F) : ndarray F :=
  match a with
  | Vec v => Vec v
  | Mat c rows => Mat (length rows) (map (fun j => column j rows) (seq 0 c))
  end.

(** [np.arange(start, stop, step)] on floats: [ceil((stop - start)/step)]
    values [start + i*step]; a zero step makes the quotient infinite or
    undefined, which numpy refuses; a non-positive count is an empty
    array. *)
Definition arange (start stop step : F) : outcome (list F) :=
  if feqb step (lit 0) then Raise (ValueError "Maximum allowed size exceeded")
  else
    match fceil ((stop - start) / step) with
    | None => Raise (ValueError "arange: cannot compute length")
    | Some n =>
        Ret (map (fun i => start + of_nat i * step) (seq 0 (Z.to_nat n)))
    end.

(** [a, b = m] for a two-dimensional [m]: its rows.  The program unpacks
    what a spline over matrix values returns, which is a matrix; a vector,
    whose entries would unpack as scalars, does not arise. *)
Definition unpack2 (m : ndarray F) : outcome (list F * list F) :=
  match m with
  | Mat _ [a; b] => Ret (a, b)
  | Mat _ rows =>
      if Nat.ltb (length rows) 2
      then Raise (ValueError "not enough values to unpack (expected 2)")
      else Raise (ValueError "too many values to unpack (expected 2)")
  | Vec _ => Raise (TypeError "a two-dimensional array was expected")
  end.

Definition arctan2 (a b : list F) : list F := zip_with fatan2 a b.

(** The operations of [src/description.py].  The program applies them to
    vectors of two entries and to matrices of two columns; operand shapes
    that numpy would broadcast but the program never builds are refused. *)

Definition broadcast_error {A} : outcome A :=
  Raise (ValueError "operands could not be broadcast together").

(** [k * a] for a scalar [k] *)
Definition scale (k : F) (a : ndarray F) : ndarray F :=
  match a with
  | Vec v => Vec (map (fmul k) v)
  | Mat c rows => Mat c (map (map (fmul k)) rows)
  end.

(** [a op b], elementwise, and [a op= b], whose result overwrites [a] *)
Definition elementwise (op : F → F → F) (a b : ndarray F) : outcome (ndarray F) :=
  match a, b with
  | Vec u, Vec v =>
      if Nat.eqb (length u) (length v) then Ret (Vec (zip_with op u v))
      else broadcast_error
  | Mat c rows, Vec v =>
      if Nat.eqb c (length v) then Ret (Mat c (map (fun r => zip_with op r v) rows))
      else broadcast_error
  | Mat c rows, Mat c' rows' =>
      if Nat.eqb c c' && Nat.eqb (length rows) (length rows')
      then Ret (Mat c (zip_with (zip_with op) rows rows'))
      else broadcast_error
  | Vec _, Mat _ _ => broadcast_error
  end.

Definition add := elementwise fadd.
Definition subtract := elementwise fsub.

(** [a[i]] *)
Definition getitem (a : ndarray F) (i : nat) : outcome F :=
  match a with
  | Vec v =>
      match v !! i with
      | Some e => Ret e
      | None => Raise (IndexError "index is out of bounds for axis 0")
      end
  | Mat _ _ => Raise (TypeError "only length-1 arrays can be converted to Python scalars")
  end.

(** [a[i][j]] *)
Definition getitem2 (a : ndarray F) (i j : nat) : outcome F :=
  match a with
  | Mat _ rows =>
      match rows !! i with
      | Some r =>
          match r !! j with
          | Some e => Ret e
          | None => Raise (IndexError "index is out of bounds for axis 0")
          end
      | None => Raise (IndexError "index is out of bounds for axis 0")
      end
  | Vec _ => Raise (IndexError "invalid index to scalar variable.")
  end.

(** [a[i]] for a matrix: row [i] *)
Definition getrow (a : ndarray F) (i : nat) : outcome (list F) :=
  match a with
  | Mat _ rows =>
      match rows !! i with
      | Some r => Ret r
      | None => Raise (IndexError "index is out of bounds for axis 0")
      end
  | Vec _ => Raise (TypeError "a row was expected")
  end.

(** [np.concatenate([a, [row]])] *)
Definition concatenate_row (a : ndarray F) (row : list F) : outcome (ndarray F) :=
  match a with
  | Mat c rows =>
      if Nat.eqb c (length row) then Ret (Mat c (rows ++ [row]))
      else Raise (ValueError "all the input array dimensions except for the concatenation axis must match exactly")
  | Vec _ => Raise (ValueError "all the input arrays must have same number of dimensions")
  end.

(** [a[:, j] = f(a[:, j])], as in [a[:, j] *= k] and [a[:, j] += k] *)
Definition update_column (j : nat) (f : F → F) (a : ndarray F) : outcome (ndarray F) :=
  match a with
  | Mat c rows =>
      if Nat.ltb j c then Ret (Mat c (map (fun r => alter f j r) rows))
      else Raise (IndexError "index is out of bounds for axis 1")
  | Vec _ => Raise (IndexError "too many indices for array")
  end.

(** [a[i, :] = f(a[i, :])], as in [a[i, :] += k] *)
Definition update_row (i : nat) (f : F → F) (a : ndarray F) : outcome (ndarray F) :=
  match a with
  | Mat c rows =>
      if Nat.ltb i (length rows) then Ret (Mat c (alter (map f) i rows))
      else Raise (IndexError "index is out of bounds for axis 0")
  | Vec _ => Raise (IndexError "too many indices for array")
  end.

(** The inner product of a row and a column: the products summed from left
    to right. *)
Definition inner (r c : list F) : F :=
  match zip_with fmul r c with
  | [] => lit 0
  | p :: ps => foldl fadd p ps
  end.

(** [a.dot(b)] and [a @ b] on matrices *)
Definition dot (a b : ndarray F) : outcome (ndarray F) :=
  match a, b with
  | Mat c rows, Mat c' rows' =>
      if Nat.eqb c (length rows')
      then Ret (Mat c' (map (fun r => map (fun j => inner r (column j rows')) (seq 0 c')) rows))
      else Raise (ValueError "shapes not aligned")
  | _, _ => Raise (ValueError "shapes not aligned")
  end.

(** [s, e, mu, v, d = a] on a one-dimensional array *)
Definition unpack5 (a : list F) : outcome (F * F * F * F * F) :=
  match a with
  | [s; e; mu; v; d] => Ret (s, e, mu, v, d)
  | _ =>
      if Nat.ltb (length a) 5
      then Raise (ValueError "not enough values to unpack (expected 5)")
      else Raise (ValueError "too many values to unpack (expected 5)")
  end.
(** [np.linspace(start, stop, num)], end point included: [num - 1] equal
    steps from [start], the last sample then set to [stop] itself.  A step
    that evaluates to zero is applied as [(i / div) * delta]; a negative
    [num] is refused. *)
Definition linspace (start stop : F) (num : Z) : outcome (list F) :=
  if (num <? 0)%Z then
    Raise (ValueError "Number of samples must be non-negative.")
  else
    let n := Z.to_nat num in
    let div := Nat.pred n in
    let delta := stop - start in
    let y := map of_nat (seq 0 n) in
    let y :=
      if Nat.ltb 0 div then
        let step := delta / of_nat div in
        if feqb step (lit 0) then map (fun v => v / of_nat div * delta) y
        else map (fun v => v * step) y
      else map (fun v => v * delta) y in
    let y := map (fun v => v + start) y in
    Ret (if Nat.ltb 1 n then <[Nat.pred n := stop]> y else y).
End Numpy.
End np.

(** ** scipy's [CubicSpline]

    The constructor's checks on its arguments are those of scipy, in scipy's
    order.  The piecewise cubic itself (the solve for the coefficients and
    the evaluation, with [extrapolate=False]) is numerical code of scipy and
    is a parameter: [ppoly knots values bc nu s] is the [nu]-th derivative
    at [s] of the interpolant of one column [values] over [knots].  A
    vector-valued spline interpolates each column on its own. *)

Class Interpolant (F : Type) : Type := {
  ppoly : list F → list F → string → nat → F → F
}.

Module scipy.
Section Scipy.
Context `{FloatOps F} `{Interpolant F}.
Local Open Scope flt_scope.

Record PPoly : Type := {
  ppoly_x : list F;          (* the knots *)
  ppoly_y : ndarray F;       (* the values, one row per knot *)
  ppoly_bc : string;
  ppoly_nu : nat             (* how many times it has been differentiated *)
}.

Definition known_bc (bc : string) : bool :=
  String.eqb bc "not-a-knot" || String.eqb bc "clamped" || String.eqb bc "natural".

Definition rows_close (a b : list F) : bool :=
  forallb (fun p => fallclose p.1 p.2) (zip a b).

Definition validate_bc (bc : string) (rows : list (list F)) : outcome unit :=
  if String.eqb bc "periodic" then
    match head rows, last rows with
    | Some a, Some b =>
        if rows_close a b then Ret tt
        else Raise (ValueError "The first and last `y` point along axis 0 must be identical when bc_type='periodic'.")
    | _, _ => Ret tt
    end
  else if known_bc bc then Ret tt
  else Raise (ValueError "bc_type is not allowed.").

(** [CubicSpline(x, y, bc_type=bc, axis=0, extrapolate=False)] *)
Definition CubicSpline (x : list F) (y : ndarray F) (bc : string) : outcome PPoly :=
  let rows := match y with Vec v => map (fun a => [a]) v | Mat _ rows => rows end in
  if Nat.ltb (length x) 2 then
    Raise (ValueError "`x` must contain at least 2 elements.")
  else if negb (Nat.eqb (length x) (length rows)) then
    Raise (ValueError "The length of `y` along `axis`=0 doesn't match the length of `x`")
  else if negb (forallb fisfinite x) then
    Raise (ValueError "`x` must contain only finite values.")
  else if negb (forallb (forallb fisfinite) rows) then
    Raise (ValueError "`y` must contain only finite values.")
  else if existsb (fun d => fle d (lit 0)) (np.ediff1d x) then
    Raise (ValueError "`x` must be strictly increasing sequence.")
  else
    _ ← validate_bc bc rows;
    Ret {| ppoly_x := x; ppoly_y := y; ppoly_bc := bc; ppoly_nu := 0 |}.

(** [cs.derivative(nu)] *)
Definition derivative (cs : PPoly) (nu : nat) : PPoly :=
  {| ppoly_x := ppoly_x cs; ppoly_y := ppoly_y cs; ppoly_bc := ppoly_bc cs;
     ppoly_nu := (ppoly_nu cs + nu)%nat |}.

Definition eval_column (cs : PPoly) (col : list F) (s : F) : F :=
  ppoly (ppoly_x cs) col (ppoly_bc cs) (ppoly_nu cs) s.

(** [cs(s)] for a one-dimensional [s]: one row per sample. *)
Definition call (cs : PPoly) (s : list F) : ndarray F :=
  match ppoly_y cs with
  | Vec v => Vec (map (eval_column cs v) s)
  | Mat c rows =>
      Mat c (map (fun si => map (fun j => eval_column cs (np.column j rows) si) (seq 0 c)) s)
  end.
End Scipy.
Arguments PPoly F : clear implicits.
End scipy.

(** ** src/tools.py *)

Section Tools.
Context `{FloatOps F} `{Interpolant F}.
Local Open Scope flt_scope.

Definition duplicate_hint : string :=
  " If you are getting a sequence error, do check if your input dataset contains consecutive duplicate(s).".

(** The knot parameters: cumulative chord length, starting at 0. *)
Definition chord_distance (x y : list F) : list F :=
  np.zeros 1 ++ np.cumsum (np.hypot (np.ediff1d x) (np.ediff1d y)).

(** Lists [x] and [y] of different lengths make numpy raise a [ValueError]
    where the chord lengths are computed (they do not broadcast) or where
    the points are put together (ragged rows), in both cases before the
    [try]; here it is raised where the points are put together. *)
Definition initialise_cubic_spline (x y : list F) (ds : F) (bc_type : string)
  : outcome (scipy.PPoly F * list F) :=
  let distance := chord_distance x y in
  xy ← np.array2 [x; y];
  let points := np.T xy in
  total ← np.item_last distance;
  s ← np.arange (lit 0) total ds;
  cs ← try_except_ValueError (scipy.CubicSpline distance points bc_type)
         (fun e => Raise (ValueError (e +:+ duplicate_hint)));
  Ret (cs, s).

Definition curvature_at (dx dy ddx ddy : F) : F :=
  (ddy * dx - ddx * dy) / ((dx * dx + dy * dy) ** lit 1.5).

Definition zip4 (f : F → F → F → F → F) (a b c d : list F) : list F :=
  zip_with (fun ab cd => f ab.1 ab.2 cd.1 cd.2) (zip a b) (zip c d).

Definition generate_cubic_spline (x y : list F) (ds : F) (bc_type : string)
  : outcome (list F * list F * list F * list F) :=
  '(cs, s) ← initialise_cubic_spline x y ds bc_type;
  '(dx, dy) ← np.unpack2 (np.T (scipy.call (scipy.derivative cs 1) s));
  let yaw := np.arctan2 dy dx in
  '(ddx, ddy) ← np.unpack2 (np.T (scipy.call (scipy.derivative cs 2) s));
  let curvature := zip4 curvature_at dx dy ddx ddy in
  '(cx, cy) ← np.unpack2 (np.T (scipy.call cs s));
  Ret (cx, cy, yaw, curvature).

Definition normalise_angle (angle : F) : F :=
  fatan2 (fsin angle) (fcos angle).

Definition get_rotation_matrix (angle : F) : ndarray F :=
  let cos_angle := fcos angle in
  let sin_angle := fsin angle in
  Mat 2 [ [cos_angle; sin_angle];
          [- sin_angle; cos_angle] ].
End Tools.


(** ** src/description.py *)

Module CarParameters.
Section CarParameters.
Context `{FloatOps F}.
Local Open Scope flt_scope.

(** The class attributes of the dataclass, evaluated once when the class is
    defined.  [max_steer], [max_velocity] and [color] are not used by the
    code embedded here. *)
Definition length : F := lit 4.97.
Definition width : F := lit 1.964.
Definition tire_diameter : F := lit 0.4826.
Definition tire_width : F := lit 0.265.
Definition axle_track : F := lit 1.7.
Definition wheelbase : F := lit 2.96.
Definition rear_overhang : F := lit 0.5 * (length - wheelbase).
Definition l_ : F := lit 0.5.
Definition l_r : F := l_ * wheelbase.
Definition l_f : F := l_ * wheelbase.
End CarParameters.
End CarParameters.

Definition loc := nat.

Module CarDescription.
Section CarDescription.
Context `{FloatOps F}.
Local Open Scope flt_scope.

(** The attributes of an instance.  Array attributes hold the location of
    their array; [x] and [y] hold [None] until [plot_car] sets them. *)
Record attrs : Type := {
  outlines : loc;
  rear_right_wheel : loc;
  rear_left_wheel : loc;
  fr_wheel_center : loc;
  fl_wheel_center : loc;
  fr_wheel_origin : loc;
  fl_wheel_origin : loc;
  x : option F;
  y : option F;
  yaw_vector : loc
}.

Definition set_x (v : option F) (o : attrs) : attrs :=
  {| outlines := outlines o; rear_right_wheel := rear_right_wheel o;
     rear_left_wheel := rear_left_wheel o; fr_wheel_center := fr_wheel_center o;
     fl_wheel_center := fl_wheel_center o; fr_wheel_origin := fr_wheel_origin o;
     fl_wheel_origin := fl_wheel_origin o; x := v; y := y o;
     yaw_vector := yaw_vector o |}.

Definition set_y (v : option F) (o : attrs) : attrs :=
  {| outlines := outlines o; rear_right_wheel := rear_right_wheel o;
     rear_left_wheel := rear_left_wheel o; fr_wheel_center := fr_wheel_center o;
     fl_wheel_center := fl_wheel_center o; fr_wheel_origin := fr_wheel_origin o;
     fl_wheel_origin := fl_wheel_origin o; x := x o; y := v;
     yaw_vector := yaw_vector o |}.

Definition set_yaw_vector (l : loc) (o : attrs) : attrs :=
  {| outlines := outlines o; rear_right_wheel := rear_right_wheel o;
     rear_left_wheel := rear_left_wheel o; fr_wheel_center := fr_wheel_center o;
     fl_wheel_center := fl_wheel_center o; fr_wheel_origin := fr_wheel_origin o;
     fl_wheel_origin := fl_wheel_origin o; x := x o; y := y o;
     yaw_vector := l |}.

(** The store: the arrays and the instances, each addressed by position.
    A new object is appended; nothing is ever freed. *)
Record store : Type := {
  arrays : list (ndarray F);
  instances : list attrs
}.

(** A statement runs on the store and either returns or raises; the store
    it leaves behind is kept in both cases. *)
Definition M (A : Type) : Type := store → outcome A * store.

#[export] Instance M_ret : MRet M := fun A a σ => (Ret a, σ).
#[export] Instance M_bind : MBind M := fun A B f c σ =>
  match c σ with
  | (Ret a, σ') => f a σ'
  | (Raise e, σ') => (Raise e, σ')
  end.

Definition lift {A} (c : outcome A) : M A := fun σ => (c, σ).

Definition new_array (a : ndarray F) : M loc := fun σ =>
  (Ret (List.length (arrays σ)),
   {| arrays := arrays σ ++ [a]; instances := instances σ |}).

Definition load (l : loc) : M (ndarray F) := fun σ =>
  match arrays σ !! l with
  | Some a => (Ret a, σ)
  | None => (Raise (AttributeError "no such array"), σ)
  end.

(** An update in place: the array at [l] is replaced by [f] of it. *)
Definition update (l : loc) (f : ndarray F → outcome (ndarray F)) : M unit := fun σ =>
  match arrays σ !! l with
  | Some a =>
      match f a with
      | Ret a' => (Ret tt, {| arrays := <[l := a']> (arrays σ); instances := instances σ |})
      | Raise e => (Raise e, σ)
      end
  | None => (Raise (AttributeError "no such array"), σ)
  end.

(** [a.copy()] *)
Definition copy (l : loc) : M loc := a ← load l; new_array a.

Definition new_instance (o : attrs) : M loc := fun σ =>
  (Ret (List.length (instances σ)),
   {| arrays := arrays σ; instances := instances σ ++ [o] |}).

(** [self.attr] *)
Definition getattr {A} (self : loc) (attr : attrs → A) : M A := fun σ =>
  match instances σ !! self with
  | Some o => (Ret (attr o), σ)
  | None => (Raise (AttributeError "no such instance"), σ)
  end.

(** [self.attr = v] *)
Definition setattr (self : loc) (set : attrs → attrs) : M unit := fun σ =>
  match instances σ !! self with
  | Some o => (Ret tt, {| arrays := arrays σ; instances := <[self := set o]> (instances σ) |})
  | None => (Raise (AttributeError "no such instance"), σ)
  end.

(** A number is needed where an attribute may still hold [None]. *)
Definition as_float (v : option F) : outcome F :=
  match v with
  | Some a => Ret a
  | None => Raise (TypeError "unsupported operand type(s) for +=: 'float' and 'NoneType'")
  end.

(** [np.empty((2, 2))]: whatever the memory holds, here [u i j]. *)
Definition empty22 (u : nat → nat → F) : ndarray F :=
  Mat 2 [ [u 0%nat 0%nat; u 0%nat 1%nat]; [u 1%nat 0%nat; u 1%nat 1%nat] ].

Definition get_face_center (vertices : ndarray F) : outcome (ndarray F) :=
  v00 ← np.getitem2 vertices 0 0;
  v20 ← np.getitem2 vertices 2 0;
  v01 ← np.getitem2 vertices 0 1;
  v21 ← np.getitem2 vertices 2 1;
  Ret (Vec [ lit 0.5 * (v00 + v20); lit 0.5 * (v01 + v21) ]).

(** [CarDescription()]: the arrays are built as [__init__] builds them and
    the instance is created holding its attributes. *)
Definition __init__ (u : nat → nat → F) : M loc :=
  let rear_axle_to_front_bumper := CarParameters.length - CarParameters.rear_overhang in
  let centerline_to_wheel_centre := lit 0.5 * CarParameters.axle_track in
  let centerline_to_side := lit 0.5 * CarParameters.width in
  vehicle_vertices ← new_array (Mat 2 [
    [- CarParameters.rear_overhang; centerline_to_side];
    [rear_axle_to_front_bumper; centerline_to_side];
    [rear_axle_to_front_bumper; - centerline_to_side];
    [- CarParameters.rear_overhang; - centerline_to_side] ]);
  let half_tyre_width := lit 0.5 * CarParameters.tire_width in
  let centerline_to_inwards_rim := centerline_to_wheel_centre - half_tyre_width in
  let centerline_to_outwards_rim := centerline_to_wheel_centre + half_tyre_width in
  wheel_vertices ← new_array (Mat 2 [
    [- CarParameters.tire_diameter; - centerline_to_inwards_rim];
    [CarParameters.tire_diameter; - centerline_to_inwards_rim];
    [CarParameters.tire_diameter; - centerline_to_outwards_rim];
    [- CarParameters.tire_diameter; - centerline_to_outwards_rim] ]);
  vv ← load vehicle_vertices;
  vv0 ← lift (np.getrow vv 0);
  self_outlines ← (a ← lift (np.concatenate_row vv vv0); new_array a);
  wv ← load wheel_vertices;
  wv0 ← lift (np.getrow wv 0);
  self_rear_right_wheel ← (a ← lift (np.concatenate_row wv wv0); new_array a);
  self_rear_left_wheel ← copy self_rear_right_wheel;
  _ ← update self_rear_left_wheel (np.update_column 1 (fun v => v * lit (-1)));
  front_left_wheel ← copy self_rear_left_wheel;
  front_right_wheel ← copy self_rear_right_wheel;
  _ ← update front_left_wheel (np.update_column 0 (fun v => v + CarParameters.wheelbase));
  _ ← update front_right_wheel (np.update_column 0 (fun v => v + CarParameters.wheelbase));
  self_fr_wheel_center ← (a ← load front_right_wheel; c ← lift (get_face_center a); new_array c);
  self_fl_wheel_center ← (a ← load front_left_wheel; c ← lift (get_face_center a); new_array c);
  self_fr_wheel_origin ←
    (a ← load front_right_wheel; c ← load self_fr_wheel_center;
     d ← lift (np.subtract a c); new_array d);
  self_fl_wheel_origin ←
    (a ← load front_left_wheel; c ← load self_fl_wheel_center;
     d ← lift (np.subtract a c); new_array d);
  self_yaw_vector ← new_array (empty22 u);
  new_instance {|
    outlines := self_outlines;
    rear_right_wheel := self_rear_right_wheel;
    rear_left_wheel := self_rear_left_wheel;
    fr_wheel_center := self_fr_wheel_center;
    fl_wheel_center := self_fl_wheel_center;
    fr_wheel_origin := self_fr_wheel_origin;
    fl_wheel_origin := self_fl_wheel_origin;
    x := None;
    y := None;
    yaw_vector := self_yaw_vector |}.

(** [point.dot(self.yaw_vector).T] is a view of the product, a new array
    nothing else refers to; the view is the array allocated here. *)
Definition transform (self : loc) (point : loc) : M loc :=
  p ← load point;
  yv ← (l ← getattr self yaw_vector; load l);
  d ← lift (np.dot p yv);
  point ← new_array (np.T d);
  sx ← getattr self x;
  _ ← update point (fun a => k ← as_float sx; np.update_row 0 (fun v => v + k) a);
  sy ← getattr self y;
  _ ← update point (fun a => k ← as_float sy; np.update_row 1 (fun v => v + k) a);
  mret point.

Definition frenet_to_cartesian (self : loc) (x_road : list F) : M (F * F * F * F * F) :=
  '(s, e, mu, v, d) ← lift (np.unpack5 x_road);
  let r := lit 50 in
  let yaw := mu + (fpi / lit 2 + (s / r)) in
  xy ← new_array (np.scale r (Vec [fcos (s / r); fsin (s / r)]));
  _ ← update xy (fun a => np.add a (np.scale e (Vec [fcos (fpi + (s / r)); fsin (fpi + (s / r))])));
  _ ← update xy (fun a => np.add a (np.scale CarParameters.l_r (Vec [fcos yaw; fsin yaw])));
  xy0 ← (a ← load xy; lift (np.getitem a 0));
  xy1 ← (a ← load xy; lift (np.getitem a 1));
  mret (xy0, xy1, v, yaw, d).

Definition plot_car (self : loc) (x_road : list F)
  : M (option F * option F * loc * loc * loc * loc * loc) :=
  x_global ← frenet_to_cartesian self x_road;
  let '(gx, gy, _, yaw, steer) := x_global in
  _ ← setattr self (set_x (Some gx));
  _ ← setattr self (set_y (Some gy));
  (* Rotation matrices *)
  _ ← (l ← new_array (get_rotation_matrix yaw); setattr self (set_yaw_vector l));
  steer_vector ← new_array (get_rotation_matrix steer);
  (* Rotate the wheels about its position *)
  front_right_wheel ← (l ← getattr self fr_wheel_origin; copy l);
  front_left_wheel ← (l ← getattr self fl_wheel_origin; copy l);
  front_right_wheel ←
    (a ← load front_right_wheel; b ← load steer_vector; c ← lift (np.dot a b); new_array c);
  front_left_wheel ←
    (a ← load front_left_wheel; b ← load steer_vector; c ← lift (np.dot a b); new_array c);
  _ ← (l ← getattr self fr_wheel_center; c ← load l; update front_right_wheel (fun a => np.add a c));
  _ ← (l ← getattr self fl_wheel_center; c ← load l; update front_left_wheel (fun a => np.add a c));
  outlines ← (l ← getattr self outlines; transform self l);
  rear_right_wheel ← (l ← getattr self rear_right_wheel; transform self l);
  rear_left_wheel ← (l ← getattr self rear_left_wheel; transform self l);
  front_right_wheel ← transform self front_right_wheel;
  front_left_wheel ← transform self front_left_wheel;
  sx ← getattr self x;
  sy ← getattr self y;
  mret (sx, sy, outlines, front_right_wheel, rear_right_wheel, front_left_wheel, rear_left_wheel).
End CarDescription.
End CarDescription.


(** ** src/path.py

    Reading the track file is input: [rows] is what [csv.reader] yields for
    it, a list of cells per line, and [float] is Python's conversion of a
    cell to a number, which raises on a cell that is not one. *)

(** [zip] applied to the rows themselves (the starred call of the source):
    the columns of [rows], as many as the shortest row has cells; none when
    there is no row. *)
Fixpoint zip_star_n {A} (n : nat) (rows : list (list A)) : list (list A) :=
  match n with
  | O => []
  | S n =>
      match mapM head rows with
      | Some column => column :: zip_star_n n (map tail rows)
      | None => []
      end
  end.

Definition zip_star {A} (rows : list (list A)) : list (list A) :=
  match rows with
  | [] => []
  | r :: _ => zip_star_n (length r) rows
  end.

Section Track.
Context `{FloatOps F}.
Local Open Scope flt_scope.

Definition generate_circular_track (radius : F) (num_points : Z) : outcome (list (F * F)) :=
  (* Generate evenly spaced angles around the circle *)
  angles ← np.linspace (lit 0) (lit 2 * fpi) num_points;
  (* Calculate x and y coordinates using polar to Cartesian conversion *)
  let x_coordinates := map (fun a => radius * fcos a) angles in
  let y_coordinates := map (fun a => radius * fsin a) angles in
  Ret (zip x_coordinates y_coordinates).

Definition generate_ellipse_track (semi_minor semi_major : F) (num_points : Z)
  : outcome (list (F * F)) :=
  angles ← np.linspace (lit 0) (lit 2 * fpi) num_points;
  let x_coordinates := map (fun a => semi_minor * fcos a) angles in
  let y_coordinates := map (fun a => semi_major * fsin a) angles in
  Ret (zip x_coordinates y_coordinates).
End Track.

Module CircularPath.
Section CircularPath.
Context `{FloatOps F} `{Interpolant F}.
Variable float : string → outcome F.
Local Open Scope flt_scope.

(** The attributes [__init__] sets. *)
Record attrs : Type := {
  x_t : list F;
  y_t : list F;
  yaw_t : list F;
  k : list F;
  radius : F;
  length : F;
  s : list F;
  width : F
}.

(** [x, y = cols] *)
Definition unpack_xy (cols : list (list F)) : outcome (list F * list F) :=
  match cols with
  | [x; y] => Ret (x, y)
  | _ =>
      if Nat.ltb (List.length cols) 2
      then Raise (ValueError "not enough values to unpack (expected 2)")
      else Raise (ValueError "too many values to unpack (expected 2)")
  end.

(** [CircularPath(radius, width, file_path, circle)]; with [circle] false
    no attribute is set, which is [None] here. *)
Definition __init__ (radius width : F) (rows : list (list string)) (circle : bool)
  : outcome (option attrs) :=
  if circle then
    let ds := lit 0.05 in
    cols ← mapM (mapM float) (zip_star (tail rows));
    '(x, y) ← unpack_xy cols;
    '(self_x_t, self_y_t, self_yaw_t, self_k) ← generate_cubic_spline x y ds "natural";
    let self_radius := radius in
    let self_length := lit 2 * fpi * self_radius in
    self_s ← np.linspace (lit 0) self_length (Z.of_nat (List.length self_x_t));
    let self_width := width in
    Ret (Some {| x_t := self_x_t; y_t := self_y_t; yaw_t := self_yaw_t; k := self_k;
                 radius := self_radius; length := self_length; s := self_s;
                 width := self_width |})
  else Ret None.
End CircularPath.
End CircularPath.

(** ** The real numbers as an instance *)

Definition Rleb (a b : R) : bool := if Rle_dec a b then true else false.
Definition Reqb (a b : R) : bool := if Req_dec_T a b then true else false.

(** [atan2 y x]: the angle of the point [(x, y)], in (-pi, pi]. *)
Definition Ratan2 (y x : R) : R :=
  if Rlt_dec 0 x then atan (y / x)
  else if Rlt_dec x 0 then
    (if Rle_dec 0 y then atan (y / x) + PI else atan (y / x) - PI)%R
  else if Rlt_dec 0 y then (PI / 2)%R
  else if Rlt_dec y 0 then (- PI / 2)%R
  else 0%R.

(** [x ** y]; a negative base has no real power and is given 0. *)
Definition Rpow (x y : R) : R :=
  if Rlt_dec 0 x then Rpower x y
  else if Req_dec_T y 0 then 1%R
  else 0%R.

(** Exact arithmetic.  Quotients are not rounded here, so a ceiling taken
    in this instance can be one more than the ceiling the code takes of the
    rounded quotient; no sample count is stated on it. *)
#[export] Instance R_ops : FloatOps R := {|
  lit := Q2R;
  fadd := Rplus;
  fsub := Rminus;
  fmul := Rmult;
  fdiv := Rdiv;
  fneg := Ropp;
  fpow := Rpow;
  fcos := cos;
  fsin := sin;
  fatan2 := Ratan2;
  fhypot := fun a b => sqrt (a * a + b * b);
  fpi := PI;
  fle := Rleb;
  feqb := Reqb;
  fisfinite := fun _ => true;
  fallclose := fun a b => Rleb (Rabs (a - b)) (Q2R 1e-15 + Q2R 1e-15 * Rabs b);
  fceil := fun r => Some (Zceil r)
|}.

(** The straight line through the first two knots.  With two knots it is
    the natural cubic spline; the examples below have two waypoints. *)
Definition chord_ppoly (knots values : list R) (bc : string) (nu : nat) (s : R) : R :=
  match knots, values with
  | t0 :: t1 :: _, v0 :: v1 :: _ =>
      match nu with
      | 0%nat => (v0 + (v1 - v0) * ((s - t0) / (t1 - t0)))%R
      | 1%nat => ((v1 - v0) / (t1 - t0))%R
      | _ => 0%R
      end
  | _, _ => 0%R
  end.

#[export] Instance chord_interpolant : Interpolant R := {| ppoly := chord_ppoly |}.

Import CarDescription.

(** ** The vocabulary of the specification *)

Section SpecTools.
Local Open Scope R_scope.

(** Waypoints are pairs; the code receives their coordinates as two lists. *)
Definition xs (wps : list (R * R)) : list R := map fst wps.
Definition ys (wps : list (R * R)) : list R := map snd wps.

(** The Euclidean chord between two waypoints, the chords between
    consecutive waypoints, and their sum. *)
Definition chord (p q : R * R) : R :=
  sqrt ((q.1 - p.1) * (q.1 - p.1) + (q.2 - p.2) * (q.2 - p.2)).

Fixpoint chords (wps : list (R * R)) : list R :=
  match wps with
  | [] => []
  | p :: t =>
      match t with
      | [] => []
      | q :: _ => chord p q :: chords t
      end
  end.

Definition total_chord_length (wps : list (R * R)) : R :=
  foldr Rplus 0 (chords wps).

(** No two consecutive waypoints coincide. *)
Definition non_degenerate (wps : list (R * R)) : Prop :=
  ∀ i p q, wps !! i = Some p → wps !! S i = Some q → p ≠ q.

Definition consecutive_duplicate (wps : list (R * R)) : Prop :=
  ∃ i p, wps !! i = Some p ∧ wps !! S i = Some p.

(** [n] is the floor of [q]. *)
Definition is_floor (n : nat) (q : R) : Prop := INR n <= q < INR n + 1.

(** The parameters [0, ds, 2 ds, ...] at which the curve is resampled. *)
Definition samples (total ds : R) : list R :=
  map (fun i => INR i * ds) (seq 0 (Z.to_nat (Zceil (total / ds)))).

(** The spline object fitted to waypoints. *)
Definition fitted (wps : list (R * R)) (bc : string) : scipy.PPoly R :=
  {| scipy.ppoly_x := chord_distance (xs wps) (ys wps);
     scipy.ppoly_y := np.T (Mat (length (xs wps)) [xs wps; ys wps]);
     scipy.ppoly_bc := bc; scipy.ppoly_nu := 0 |}.

Definition two_waypoints : list (R * R) := [(0, 0); (3, 0)].
Definition repeated_waypoint : list (R * R) := [(1, 1); (1, 1)].
End SpecTools.

Section SpecInterpolant.
Context `{FloatOps F} `{Interpolant F}.

(** The [nu]-th derivative at [s] of the interpolant fitted to the
    coordinate list [col] of the waypoints [x], [y]. *)
Definition interp (x y col : list F) (bc : string) (nu : nat) (s : F) : F :=
  ppoly (chord_distance x y) col bc nu s.
End SpecInterpolant.

Section SpecPose.
Context `{FloatOps F}.
Local Open Scope flt_scope.
Local Abbreviation store := (@CarDescription.store F).
Local Abbreviation attrs := (@CarDescription.attrs F).
Local Abbreviation M := (@CarDescription.M F).

(** A polygon is its vertices in order. *)
Definition polygon : Type := list (F * F).

(** As an array of the vehicle frame, a polygon has one row per vertex. *)
Definition rows_of (pts : polygon) : list (list F) :=
  map (fun p => [p.1; p.2]) pts.

(** In world space [transform] returns the transposed array: the row of
    abscissas and the row of ordinates.  Vertex [i] is column [i]. *)
Definition columns_of (pts : polygon) : ndarray F :=
  Mat (length pts) [map fst pts; map snd pts].

(** A point times [R(angle) = [[cos, sin], [-sin, cos]]], the point being a
    row vector. *)
Definition rotate (angle : F) (p : F * F) : F * F :=
  (p.1 * fcos angle + p.2 * (- fsin angle),
   p.1 * fsin angle + p.2 * fcos angle).

Definition translate (t : F * F) (p : F * F) : F * F :=
  (p.1 + t.1, p.2 + t.2).

(** Steer pivot: a front wheel vertex, given relative to the face centre,
    is turned by the steer angle and the face centre is added back. *)
Definition steer_pivot (steer : F) (centre : F * F) (p : F * F) : F * F :=
  translate centre (rotate steer p).

(** Body rotation, then translation to the world position. *)
Definition to_world (pos : F * F) (yaw : F) (p : F * F) : F * F :=
  translate pos (rotate yaw p).

(** The world pose of section 4.3 for path radius [r]. *)
Definition pose_yaw (r : F) (s mu : F) : F := mu + (fpi / lit 2 + s / r).
Definition pose_x (r : F) (s e mu : F) : F :=
  r * fcos (s / r) + e * fcos (fpi + s / r) + CarParameters.l_r * fcos (pose_yaw r s mu).
Definition pose_y (r : F) (s e mu : F) : F :=
  r * fsin (s / r) + e * fsin (fpi + s / r) + CarParameters.l_r * fsin (pose_yaw r s mu).

(** What [frenet_to_cartesian] returns, as a function of its argument. *)
Definition frenet_value (x_road : list F) : outcome (F * F * F * F * F) :=
  '(s, e, mu, v, d) ← np.unpack5 x_road;
  let r := lit 50 in
  Ret (pose_x r s e mu, pose_y r s e mu, v, pose_yaw r s mu, d).

(** A polygon is closed when it ends on the vertex it starts from. *)
Definition closed (pts : polygon) : Prop :=
  (2 ≤ length pts)%nat ∧ head pts = last pts.

(** The shape constants of an instance: body outline, rear wheels, and
    each front wheel relative to its face centre together with that
    centre. *)
Record shape : Type := {
  body : polygon;
  wheel_rr : polygon;
  wheel_rl : polygon;
  wheel_fr : polygon;
  centre_fr : F * F;
  wheel_fl : polygon;
  centre_fl : F * F
}.

(** The instance [self] of the store [σ] stores the shape [sh]. *)
Definition holds (σ : store) (self : loc) (sh : shape) : Prop :=
  ∃ o, instances σ !! self = Some o
    ∧ arrays σ !! outlines o = Some (Mat 2 (rows_of (body sh)))
    ∧ arrays σ !! rear_right_wheel o = Some (Mat 2 (rows_of (wheel_rr sh)))
    ∧ arrays σ !! rear_left_wheel o = Some (Mat 2 (rows_of (wheel_rl sh)))
    ∧ arrays σ !! fr_wheel_origin o = Some (Mat 2 (rows_of (wheel_fr sh)))
    ∧ arrays σ !! fr_wheel_center o = Some (Vec [(centre_fr sh).1; (centre_fr sh).2])
    ∧ arrays σ !! fl_wheel_origin o = Some (Mat 2 (rows_of (wheel_fl sh)))
    ∧ arrays σ !! fl_wheel_center o = Some (Vec [(centre_fl sh).1; (centre_fl sh).2]).

(** The arrays one call of [plot_car] allocates, in order. *)
Definition plot_car_arrays (sh : shape) (s e mu v d : F) : list (ndarray F) :=
  let r := lit 50 in
  let pos := (pose_x r s e mu, pose_y r s e mu) in
  let yaw := pose_yaw r s mu in
  let fr := map (steer_pivot d (centre_fr sh)) (wheel_fr sh) in
  let fl := map (steer_pivot d (centre_fl sh)) (wheel_fl sh) in
  [ Vec [pos.1; pos.2];
    get_rotation_matrix yaw;
    get_rotation_matrix d;
    Mat 2 (rows_of (wheel_fr sh));
    Mat 2 (rows_of (wheel_fl sh));
    Mat 2 (rows_of fr);
    Mat 2 (rows_of fl);
    columns_of (map (to_world pos yaw) (body sh));
    columns_of (map (to_world pos yaw) (wheel_rr sh));
    columns_of (map (to_world pos yaw) (wheel_rl sh));
    columns_of (map (to_world pos yaw) fr);
    columns_of (map (to_world pos yaw) fl) ].

(** The polygons of section 4.2, in the arithmetic of [__init__]. *)
Definition close_polygon (pts : polygon) : polygon :=
  match pts with
  | [] => []
  | p :: _ => pts ++ [p]
  end.

Definition body_outline : polygon :=
  let front := CarParameters.length - CarParameters.rear_overhang in
  let side := lit 0.5 * CarParameters.width in
  close_polygon
    [ (- CarParameters.rear_overhang, side); (front, side);
      (front, - side); (- CarParameters.rear_overhang, - side) ].

Definition rear_right : polygon :=
  let centre := lit 0.5 * CarParameters.axle_track in
  let half := lit 0.5 * CarParameters.tire_width in
  close_polygon
    [ (- CarParameters.tire_diameter, - (centre - half));
      (CarParameters.tire_diameter, - (centre - half));
      (CarParameters.tire_diameter, - (centre + half));
      (- CarParameters.tire_diameter, - (centre + half)) ].

Definition reflect (p : F * F) : F * F := (p.1, p.2 * lit (-1)).
Definition to_front_axle (p : F * F) : F * F := (p.1 + CarParameters.wheelbase, p.2).

Definition rear_left : polygon := map reflect rear_right.
Definition front_right : polygon := map to_front_axle rear_right.
Definition front_left : polygon := map to_front_axle rear_left.

Definition face_centre (pts : polygon) : F * F :=
  let a := nth 0 pts (lit 0, lit 0) in
  let c := nth 2 pts (lit 0, lit 0) in
  (lit 0.5 * (a.1 + c.1), lit 0.5 * (a.2 + c.2)).

Definition relative_to (c : F * F) (p : F * F) : F * F := (p.1 - c.1, p.2 - c.2).

Definition car_shape : shape := {|
  body := body_outline;
  wheel_rr := rear_right;
  wheel_rl := rear_left;
  wheel_fr := map (relative_to (face_centre front_right)) front_right;
  centre_fr := face_centre front_right;
  wheel_fl := map (relative_to (face_centre front_left)) front_left;
  centre_fl := face_centre front_left
|}.

(** The arrays [__init__] allocates, in order, and the attributes of the
    instance it creates when the store holds [n] arrays. *)
Definition init_arrays (u : nat → nat → F) : list (ndarray F) :=
  [ Mat 2 (rows_of (take 4 body_outline));
    Mat 2 (rows_of (take 4 rear_right));
    Mat 2 (rows_of body_outline);
    Mat 2 (rows_of rear_right);
    Mat 2 (rows_of rear_left);
    Mat 2 (rows_of front_left);
    Mat 2 (rows_of front_right);
    Vec [(centre_fr car_shape).1; (centre_fr car_shape).2];
    Vec [(centre_fl car_shape).1; (centre_fl car_shape).2];
    Mat 2 (rows_of (wheel_fr car_shape));
    Mat 2 (rows_of (wheel_fl car_shape));
    empty22 u ].

Definition init_attrs (n : nat) : attrs := {|
  outlines := n + 2;
  rear_right_wheel := n + 3;
  rear_left_wheel := n + 4;
  fr_wheel_center := n + 7;
  fl_wheel_center := n + 8;
  fr_wheel_origin := n + 9;
  fl_wheel_origin := n + 10;
  x := None;
  y := None;
  yaw_vector := n + 11
|}%nat.

Definition empty_store : store := {| arrays := []; instances := [] |}.

(** Two records of attributes with the same shape attributes. *)
Definition same_shape (o o' : attrs) : Prop :=
  outlines o' = outlines o
  ∧ rear_right_wheel o' = rear_right_wheel o
  ∧ rear_left_wheel o' = rear_left_wheel o
  ∧ fr_wheel_center o' = fr_wheel_center o
  ∧ fl_wheel_center o' = fl_wheel_center o
  ∧ fr_wheel_origin o' = fr_wheel_origin o
  ∧ fl_wheel_origin o' = fl_wheel_origin o.

(** [σ'] differs from [σ] at most in arrays from location [n] on and in
    the pose attributes of the instance [self]. *)
Definition frame (n : nat) (self : loc) (σ σ' : store) : Prop :=
  take n (arrays σ') = take n (arrays σ)
  ∧ (n ≤ length (arrays σ'))%nat
  ∧ length (instances σ') = length (instances σ)
  ∧ ∀ j o, instances σ !! j = Some o →
      ∃ o', instances σ' !! j = Some o' ∧ same_shape o o' ∧ (j ≠ self → o' = o).

(** A statement that keeps the frame, whatever its outcome, and whose
    result satisfies [Q]. *)
Definition keeps {A} (n : nat) (self : loc) (c : M A) (Q : A → Prop) : Prop :=
  ∀ σ0 σ, frame n self σ0 σ →
    frame n self σ0 (c σ).2 ∧ ∀ a, (c σ).1 = Ret a → Q a.
End SpecPose.

(** A car just built, over the reals. *)
Definition fresh_car : store (F := R) :=
  (__init__ (fun _ _ => 0%R) empty_store).2.

(** ** The vocabulary of the further properties *)

Section ViewDefs.
Context {F : Type}.

(** What the caller of [plot_car] sees: the position and the contents of
    the five arrays returned. *)
Definition plot_car_view
    (r : outcome (option F * option F * loc * loc * loc * loc * loc) * @store F)
  : option (option F * option F * list (option (ndarray F))) :=
  match r.1 with
  | Ret (px, py, l1, l2, l3, l4, l5) =>
      Some (px, py, map (fun l => arrays r.2 !! l) [l1; l2; l3; l4; l5])
  | Raise _ => None
  end.

(** The array attributes of an instance. *)
Definition array_attributes (o : @attrs F) : list loc :=
  [ outlines o; rear_right_wheel o; rear_left_wheel o; fr_wheel_center o;
    fl_wheel_center o; fr_wheel_origin o; fl_wheel_origin o; yaw_vector o ].
End ViewDefs.

Section CongruenceDefs.
Local Open Scope R_scope.

Definition dist2 (p q : R * R) : R :=
  (p.1 - q.1) * (p.1 - q.1) + (p.2 - q.2) * (p.2 - q.2).

(** [W] has the vertices of [P], in order, at the same mutual distances. *)
Definition congruent (P W : list (R * R)) : Prop :=
  length W = length P
  ∧ ∀ i j p q p' q', P !! i = Some p → P !! j = Some q →
      W !! i = Some p' → W !! j = Some q' → dist2 p' q' = dist2 p q.
End CongruenceDefs.

Section TrackDefs.
Local Open Scope R_scope.

(** The point of index [i] on a circular track of [n] points: the angle is
    [i] steps of [2 pi / (n - 1)]. *)
Definition circle_point (r : R) (n : nat) (i : nat) : R * R :=
  (r * cos (INR i * (2 * PI / INR (Nat.pred n))),
   r * sin (INR i * (2 * PI / INR (Nat.pred n)))).
End TrackDefs.

(** A track file of a header line and two waypoints, and a conversion that
    reads the cells of that file and raises on any other cell, as [float]
    does on a cell that is not a number. *)
Definition float_example (cell : string) : outcome R :=
  if String.eqb cell "0" then Ret 0%R
  else if String.eqb cell "3" then Ret 3%R
  else Raise (ValueError ("could not convert string to float: " +:+ cell)).

Definition example_rows : list (list string) :=
  [["X-axis"; "Y-axis"]; ["0"; "0"]; ["3"; "0"]].

(** * Facts

    ** The array operations on small inputs *)

Section Examples.
Context `{FloatOps F}.
Local Open Scope flt_scope.

Example ediff1d_3 (a b c : F) : np.ediff1d [a; b; c] = [b - a; c - b].
Proof. reflexivity. Qed.

Example cumsum_3 (a b c : F) : np.cumsum [a; b; c] = [a; a + b; a + b + c].
Proof. reflexivity. Qed.

Example chord_distance_3 (a b c u v w : F) :
  chord_distance [a; b; c] [u; v; w]
  = [lit 0; fhypot (b - a) (v - u); fhypot (b - a) (v - u) + fhypot (c - b) (w - v)].
Proof. reflexivity. Qed.

Example T_2_3 (a b c d e f : F) :
  np.T (Mat 3 [[a; b; c]; [d; e; f]]) = Mat 2 [[a; d]; [b; e]; [c; f]].
Proof. reflexivity. Qed.

Example T_empty : np.T (Mat 2 ([] : list (list F))) = Mat 0 [[]; []].
Proof. reflexivity. Qed.

Example dot_row (p q angle : F) :
  np.dot (Mat 2 [[p; q]]) (get_rotation_matrix angle)
  = Ret (Mat 2 [[p * fcos angle + q * (- fsin angle); p * fsin angle + q * fcos angle]]).
Proof. reflexivity. Qed.

Example update_row_0 (a b c d k : F) :
  np.update_row 0 (fun v => v + k) (Mat 2 [[a; b]; [c; d]])
  = Ret (Mat 2 [[a + k; b + k]; [c; d]]).
Proof. reflexivity. Qed.

Example unpack5_short (a b : F) : is_Raise (np.unpack5 [a; b]).
Proof. exact I. Qed.
End Examples.

(** ** The arrays of [generate_cubic_spline] *)

Section ToolsFacts.
Context `{FloatOps F} `{Interpolant F}.
Local Open Scope flt_scope.

Lemma map_nth_seq (l : list F) (d : F) (n : nat) :
  n = length l → map (fun j => nth j l d) (seq 0 n) = l.
Proof.
  intros ->. induction l as [|a l IH]; simpl; [done|].
  f_equal. rewrite <- seq_shift, map_map. exact IH.
Qed.

Lemma array2_pair (x y : list F) (a : ndarray F) :
  np.array2 [x; y] = Ret a → length y = length x ∧ a = Mat (length x) [x; y].
Proof.
  unfold np.array2. simpl. destruct (Nat.eqb_spec (length y) (length x)); simpl.
  - intros [= <-]. done.
  - discriminate.
Qed.

Lemma columns_T_pair (x y : list F) :
  length y = length x →
  ∃ rows, np.T (Mat (length x) [x; y]) = Mat 2 rows
          ∧ np.column 0 rows = x ∧ np.column 1 rows = y.
Proof.
  intros Hlen. eexists. split; [reflexivity|].
  unfold np.column. rewrite !map_map. simpl. split.
  - by apply map_nth_seq.
  - by apply map_nth_seq.
Qed.

Lemma T_call (cs : scipy.PPoly F) (rows : list (list F)) (s : list F) :
  scipy.ppoly_y cs = Mat 2 rows →
  np.unpack2 (np.T (scipy.call cs s))
  = Ret (map (scipy.eval_column cs (np.column 0 rows)) s,
         map (scipy.eval_column cs (np.column 1 rows)) s).
Proof.
  intros Hy. unfold scipy.call. rewrite Hy. simpl.
  unfold np.column. rewrite !map_map. reflexivity.
Qed.

Lemma zip4_map {A} (f : F → F → F → F → F) (a b c d : A → F) (s : list A) :
  zip4 f (map a s) (map b s) (map c s) (map d s)
  = map (fun si => f (a si) (b si) (c si) (d si)) s.
Proof. unfold zip4. induction s as [|si s IH]; simpl; [done|]. by rewrite <- IH. Qed.

Lemma bind_Ret_inv {A B} (c : outcome A) (f : A → outcome B) (b : B) :
  c ≫= f = Ret b → ∃ a, c = Ret a ∧ f a = Ret b.
Proof. destruct c as [a|e]; simpl; [eauto|discriminate]. Qed.

Lemma CubicSpline_Ret (x : list F) (y : ndarray F) (bc : string) (cs : scipy.PPoly F) :
  scipy.CubicSpline x y bc = Ret cs →
  cs = {| scipy.ppoly_x := x; scipy.ppoly_y := y; scipy.ppoly_bc := bc; scipy.ppoly_nu := 0 |}.
Proof.
  unfold scipy.CubicSpline.
  repeat (match goal with |- context [if ?b then _ else _] => destruct b end;
          try discriminate).
  intros (? & _ & [= <-])%bind_Ret_inv. done.
Qed.

Lemma initialise_cubic_spline_Ret x y ds bc cs s :
  initialise_cubic_spline x y ds bc = Ret (cs, s) →
  length y = length x
  ∧ cs = {| scipy.ppoly_x := chord_distance x y;
            scipy.ppoly_y := np.T (Mat (length x) [x; y]);
            scipy.ppoly_bc := bc; scipy.ppoly_nu := 0 |}
  ∧ ∃ total, np.item_last (chord_distance x y) = Ret total
             ∧ np.arange (lit 0) total ds = Ret s.
Proof.
  unfold initialise_cubic_spline.
  intros (a & Ha & Hrest)%bind_Ret_inv.
  apply array2_pair in Ha as [Hlen ->].
  apply bind_Ret_inv in Hrest as (total & Htot & Hrest).
  apply bind_Ret_inv in Hrest as (s' & Hs & Hrest).
  apply bind_Ret_inv in Hrest as (cs' & Hcs & [= <- <-]).
  split; [done|]. split; [|eauto].
  destruct (scipy.CubicSpline _ _ _) as [c|[]] eqn:E; simpl in Hcs; try discriminate.
  injection Hcs as <-. by apply CubicSpline_Ret in E.
Qed.

Lemma generate_cubic_spline_eq x y ds bc cs s :
  initialise_cubic_spline x y ds bc = Ret (cs, s) →
  generate_cubic_spline x y ds bc
  = Ret (map (interp x y x bc 0) s,
         map (interp x y y bc 0) s,
         map (fun si => fatan2 (interp x y y bc 1 si) (interp x y x bc 1 si)) s,
         map (fun si =>
                (interp x y y bc 2 si * interp x y x bc 1 si
                 - interp x y x bc 2 si * interp x y y bc 1 si)
                / ((interp x y x bc 1 si * interp x y x bc 1 si
                    + interp x y y bc 1 si * interp x y y bc 1 si) ** lit 1.5)) s).
Proof.
  intros Hinit. unfold generate_cubic_spline. rewrite Hinit. simpl.
  apply initialise_cubic_spline_Ret in Hinit as (Hlen & -> & _).
  destruct (columns_T_pair x y Hlen) as (rows & HT & Hc0 & Hc1).
  rewrite (T_call _ rows), (T_call _ rows), (T_call _ rows) by (simpl; exact HT).
  simpl. unfold scipy.eval_column; simpl. rewrite Hc0, Hc1.
  f_equal. unfold interp. repeat f_equal.
  - unfold np.arctan2. rewrite zip_with_fmap_l, zip_with_fmap_r, zip_with_diag. done.
  - by rewrite zip4_map.
Qed.
End ToolsFacts.

(** ** Chord lengths, samples and the spline constructor over the reals *)

Section RealTools.
Context {I : Interpolant R}.
Local Open Scope R_scope.

Lemma Q2R_0 : Q2R 0 = 0.
Proof. unfold Q2R. simpl. lra. Qed.

Lemma hypot_ediff1d (wps : list (R * R)) :
  np.hypot (np.ediff1d (xs wps)) (np.ediff1d (ys wps)) = chords wps.
Proof.
  unfold xs, ys.
  induction wps as [|p [|q t] IH]; [done..|].
  change (chords (p :: q :: t)) with (chord p q :: chords (q :: t)).
  rewrite <- IH. reflexivity.
Qed.

Lemma ediff1d_cumsum_from (a : R) (l : list R) :
  np.ediff1d (a :: np.cumsum_from a l) = l.
Proof.
  revert a. induction l as [|h t IH]; intros a; [done|].
  change (np.ediff1d (a :: np.cumsum_from a (h :: t)))
    with ((a + h - a) :: np.ediff1d ((a + h) :: np.cumsum_from (a + h) t)).
  rewrite IH. f_equal. lra.
Qed.

Lemma cumsum_from_0 (l : list R) : np.cumsum l = np.cumsum_from 0 l.
Proof.
  destruct l as [|h t]; [done|]. simpl.
  replace (0 + h) with h by lra. done.
Qed.

Lemma chord_distance_eq (wps : list (R * R)) :
  chord_distance (xs wps) (ys wps) = 0 :: np.cumsum_from 0 (chords wps).
Proof.
  unfold chord_distance. rewrite hypot_ediff1d, cumsum_from_0.
  simpl. by rewrite Q2R_0.
Qed.

Lemma last_cumsum_from (a : R) (l : list R) :
  last (a :: np.cumsum_from a l) = Some (a + foldr Rplus 0 l).
Proof.
  revert a. induction l as [|h t IH]; intros a.
  - simpl. f_equal. lra.
  - change (last (a :: np.cumsum_from a (h :: t)))
      with (last ((a + h) :: np.cumsum_from (a + h) t)).
    rewrite IH. simpl. f_equal. lra.
Qed.

Lemma item_last_chord_distance (wps : list (R * R)) :
  np.item_last (chord_distance (xs wps) (ys wps)) = Ret (total_chord_length wps).
Proof.
  rewrite chord_distance_eq. unfold np.item_last. rewrite last_cumsum_from.
  unfold total_chord_length. f_equal. lra.
Qed.

Lemma length_chord_distance (wps : list (R * R)) :
  length (chord_distance (xs wps) (ys wps)) = Nat.max 1 (length wps).
Proof.
  rewrite chord_distance_eq. simpl. f_equal.
  assert (Hc : ∀ a l, length (np.cumsum_from a l) = length l).
  { intros a l. revert a. induction l; intros; simpl; auto. }
  rewrite Hc. induction wps as [|p [|q t] IH]; [done..|].
  simpl in *. lia.
Qed.

Lemma Q2R_inject_Z (z : Z) : Q2R (inject_Z z) = IZR z.
Proof. unfold Q2R. simpl. lra. Qed.

Lemma of_nat_R (n : nat) : of_nat n = INR n.
Proof. unfold of_nat. simpl. by rewrite Q2R_inject_Z, INR_IZR_INZ. Qed.

Lemma arange_R (total ds : R) :
  ds ≠ 0 → np.arange (lit 0) total ds = Ret (samples total ds).
Proof.
  intros Hds. unfold np.arange.
  cbn [feqb fceil fdiv fsub fadd fmul lit R_ops]. rewrite Q2R_0.
  unfold Reqb. destruct (Req_dec_T ds 0) as [?|_]; [done|].
  replace (total - 0) with total by lra.
  f_equal. unfold samples. apply map_ext. intros i.
  rewrite of_nat_R. lra.
Qed.

Lemma arange_R_zero (total : R) : is_Raise (np.arange (lit 0) total 0).
Proof.
  unfold np.arange. cbn [feqb lit R_ops]. rewrite Q2R_0.
  unfold Reqb. destruct (Req_dec_T 0 0) as [_|?]; done.
Qed.

Lemma forallb_const_true {A} (l : list A) : forallb (fun _ => true) l = true.
Proof. induction l; simpl; auto. Qed.

Lemma known_bc_not_periodic (bc : string) :
  scipy.known_bc bc = true → String.eqb bc "periodic" = false.
Proof.
  unfold scipy.known_bc. intros Hk.
  destruct (String.eqb_spec bc "periodic") as [->|]; [|done].
  by vm_compute in Hk.
Qed.

Lemma validate_bc_known (bc : string) (rows : list (list R)) :
  scipy.known_bc bc = true → scipy.validate_bc bc rows = Ret tt.
Proof.
  intros Hk. unfold scipy.validate_bc.
  by rewrite (known_bc_not_periodic bc Hk), Hk.
Qed.

(** What the constructor of the spline does on the knots and points of
    [initialise_cubic_spline]. *)
Lemma CubicSpline_on_waypoints (wps : list (R * R)) (bc : string) :
  scipy.CubicSpline (chord_distance (xs wps) (ys wps))
    (np.T (Mat (length (xs wps)) [xs wps; ys wps])) bc
  = if Nat.ltb (length wps) 2 then
      Raise (ValueError "`x` must contain at least 2 elements.")
    else if existsb (fun d => Rleb d 0) (chords wps) then
      Raise (ValueError "`x` must be strictly increasing sequence.")
    else if scipy.known_bc bc then Ret (fitted wps bc)
    else
      _ ← scipy.validate_bc bc
            (map (fun j => np.column j [xs wps; ys wps]) (seq 0 (length (xs wps))));
      Ret (fitted wps bc).
Proof.
  unfold scipy.CubicSpline.
  rewrite length_chord_distance.
  assert (Hx : length (xs wps) = length wps) by (unfold xs; by rewrite length_map).
  destruct (Nat.ltb_spec (length wps) 2) as [Hlt|Hge].
  { destruct (length wps) as [|[|n]]; [done..|lia]. }
  replace (Nat.max 1 (length wps) <? 2)%nat with false
    by (symmetry; apply Nat.ltb_ge; lia).
  cbn [np.T].
  rewrite length_map, length_seq, Hx.
  replace (Nat.max 1 (length wps) =? length wps)%nat with true
    by (symmetry; apply Nat.eqb_eq; lia).
  cbn [negb]. simpl fisfinite. rewrite forallb_const_true.
  assert (Hfin : ∀ rows : list (list R), forallb (forallb (fun _ => true)) rows = true).
  { induction rows; simpl; rewrite ?forallb_const_true; auto. }
  rewrite Hfin. cbn [negb].
  rewrite chord_distance_eq, ediff1d_cumsum_from.
  cbn [fle lit R_ops]. rewrite Q2R_0.
  destruct (existsb _ _); [done|].
  destruct (scipy.known_bc bc) eqn:Hk.
  - rewrite validate_bc_known by done. unfold fitted.
    by rewrite chord_distance_eq, Hx.
  - unfold fitted. by rewrite chord_distance_eq, Hx.
Qed.

Lemma array2_waypoints (wps : list (R * R)) :
  np.array2 [xs wps; ys wps] = Ret (Mat (length (xs wps)) [xs wps; ys wps]).
Proof.
  unfold np.array2, xs, ys. simpl. rewrite !length_map, Nat.eqb_refl. done.
Qed.

(** [initialise_cubic_spline] on waypoints, for a step that is not zero. *)
Lemma initialise_cubic_spline_R (wps : list (R * R)) (ds : R) (bc : string) :
  ds ≠ 0 →
  initialise_cubic_spline (xs wps) (ys wps) ds bc
  = cs ← try_except_ValueError
           (scipy.CubicSpline (chord_distance (xs wps) (ys wps))
              (np.T (Mat (length (xs wps)) [xs wps; ys wps])) bc)
           (fun e => Raise (ValueError (e +:+ duplicate_hint)));
    Ret (cs, samples (total_chord_length wps) ds).
Proof.
  intros Hds. unfold initialise_cubic_spline.
  rewrite array2_waypoints. cbn [mbind outcome_bind].
  rewrite item_last_chord_distance. cbn [mbind outcome_bind].
  rewrite arange_R by done. reflexivity.
Qed.

Lemma initialise_cubic_spline_R_zero (wps : list (R * R)) (bc : string) :
  is_Raise (initialise_cubic_spline (xs wps) (ys wps) 0 bc).
Proof.
  unfold initialise_cubic_spline.
  rewrite array2_waypoints. cbn [mbind outcome_bind].
  rewrite item_last_chord_distance. cbn [mbind outcome_bind].
  pose proof (arange_R_zero (total_chord_length wps)) as Hz.
  destruct (np.arange _ _ _); done.
Qed.

Lemma chords_lookup (wps : list (R * R)) (i : nat) :
  chords wps !! i
  = match wps !! i, wps !! S i with
    | Some p, Some q => Some (chord p q)
    | _, _ => None
    end.
Proof.
  revert i. induction wps as [|p [|q t] IH]; intros i.
  - done.
  - destruct i as [|[|i]]; done.
  - destruct i as [|i]; [done|].
    change (chords (p :: q :: t)) with (chord p q :: chords (q :: t)).
    cbn [lookup list_lookup]. rewrite IH. done.
Qed.

Lemma chord_pos (p q : R * R) : p ≠ q → 0 < chord p q.
Proof.
  intros Hne. apply sqrt_lt_R0.
  destruct p as [px py], q as [qx qy]; simpl.
  assert (Hsq : ∀ a b : R, a ≠ b → 0 < (a - b) * (a - b)).
  { intros a b Hab. apply (Rsqr_pos_lt (a - b)). lra. }
  assert (Hsq0 : ∀ a : R, 0 <= a * a) by (intros; nra).
  destruct (Req_dec_T qx px) as [->|Hx].
  - destruct (Req_dec_T qy py) as [->|Hy]; [done|].
    pose proof (Hsq qy py Hy). pose proof (Hsq0 (px - px)). lra.
  - pose proof (Hsq qx px Hx). pose proof (Hsq0 (qy - py)). lra.
Qed.

Lemma chord_same (p : R * R) : chord p p = 0.
Proof.
  unfold chord. replace (_ + _) with 0 by ring. apply sqrt_0.
Qed.

Lemma chords_non_degenerate (wps : list (R * R)) :
  non_degenerate wps → existsb (fun d => Rleb d 0) (chords wps) = false.
Proof.
  intros Hnd. apply not_true_is_false. intros (d & Hin & Hd)%existsb_exists.
  apply list_elem_of_In, list_elem_of_lookup in Hin as [i Hi].
  rewrite chords_lookup in Hi.
  destruct (wps !! i) as [p|] eqn:Hp; [|done].
  destruct (wps !! S i) as [q|] eqn:Hq; [|done].
  injection Hi as <-.
  pose proof (chord_pos p q (Hnd i p q Hp Hq)).
  unfold Rleb in Hd. destruct (Rle_dec _ _); [lra|done].
Qed.

Lemma chords_duplicate (wps : list (R * R)) :
  consecutive_duplicate wps → existsb (fun d => Rleb d 0) (chords wps) = true.
Proof.
  intros (i & p & Hp & Hq). apply existsb_exists. exists 0. split.
  - apply list_elem_of_In, list_elem_of_lookup. exists i.
    by rewrite chords_lookup, Hp, Hq, chord_same.
  - unfold Rleb. destruct (Rle_dec 0 0); [done|lra].
Qed.

Lemma consecutive_duplicate_length (wps : list (R * R)) :
  consecutive_duplicate wps → (2 ≤ length wps)%nat.
Proof.
  intros (i & p & _ & Hq). apply lookup_lt_Some in Hq. lia.
Qed.

End RealTools.

Section RealSampling.
Context {I : Interpolant R}.
Local Open Scope R_scope.

Lemma initialise_cubic_spline_fits (wps : list (R * R)) (ds : R) (bc : string) :
  (2 ≤ length wps)%nat → non_degenerate wps → ds ≠ 0 → scipy.known_bc bc = true →
  initialise_cubic_spline (xs wps) (ys wps) ds bc
  = Ret (fitted wps bc, samples (total_chord_length wps) ds).
Proof.
  intros Hlen Hnd Hds Hbc.
  rewrite initialise_cubic_spline_R, CubicSpline_on_waypoints by done.
  replace (length wps <? 2)%nat with false by (symmetry; apply Nat.ltb_ge; lia).
  by rewrite chords_non_degenerate, Hbc.
Qed.

Lemma initialise_cubic_spline_duplicate (wps : list (R * R)) (ds : R) (bc : string) :
  consecutive_duplicate wps → ds ≠ 0 →
  initialise_cubic_spline (xs wps) (ys wps) ds bc
  = Raise (ValueError ("`x` must be strictly increasing sequence." +:+ duplicate_hint)).
Proof.
  intros Hdup Hds.
  rewrite initialise_cubic_spline_R, CubicSpline_on_waypoints by done.
  pose proof (consecutive_duplicate_length wps Hdup).
  replace (length wps <? 2)%nat with false by (symmetry; apply Nat.ltb_ge; lia).
  by rewrite chords_duplicate.
Qed.

Lemma initialise_cubic_spline_short (wps : list (R * R)) (ds : R) (bc : string) :
  (length wps < 2)%nat → ds ≠ 0 →
  initialise_cubic_spline (xs wps) (ys wps) ds bc
  = Raise (ValueError ("`x` must contain at least 2 elements." +:+ duplicate_hint)).
Proof.
  intros Hlen Hds.
  rewrite initialise_cubic_spline_R, CubicSpline_on_waypoints by done.
  by replace (length wps <? 2)%nat with true by (symmetry; apply Nat.ltb_lt; lia).
Qed.

Lemma generate_Raise x y ds bc e :
  initialise_cubic_spline x y ds bc = Raise e →
  generate_cubic_spline x y ds bc = Raise e.
Proof. intros Hi. unfold generate_cubic_spline. by rewrite Hi. Qed.

End RealSampling.

(** ** Running statements on the store *)

Section Running.
Context `{FloatOps F}.
Local Open Scope flt_scope.

Local Abbreviation store := (@CarDescription.store F).
Local Abbreviation M := (@CarDescription.M F).
Local Abbreviation attrs := (@CarDescription.attrs F).

(** *** Running statements *)

Lemma run_bind {A B} (c : M A) (f : A → M B) (σ σ1 : store) (a : A) r :
  c σ = (Ret a, σ1) → f a σ1 = r → (c ≫= f) σ = r.
Proof. intros Hc <-. unfold mbind, M_bind. by rewrite Hc. Qed.

Lemma run_ret {A} (a : A) (σ : store) : (mret a : M A) σ = (Ret a, σ).
Proof. done. Qed.

Lemma run_lift {A} (c : outcome A) (a : A) (σ : store) :
  c = Ret a → lift c σ = (Ret a, σ).
Proof. by intros ->. Qed.

Lemma run_new_array (a : ndarray F) (h news : list (ndarray F)) insts :
  new_array a {| arrays := h ++ news; instances := insts |}
  = (Ret (length h + length news)%nat,
     {| arrays := h ++ (news ++ [a]); instances := insts |}).
Proof. unfold new_array. simpl. by rewrite length_app, app_assoc. Qed.

Lemma lookup_app_new {A} (h news : list A) (k : nat) :
  (h ++ news) !! (length h + k)%nat = news !! k.
Proof. rewrite lookup_app_r by lia. f_equal. lia. Qed.

Lemma lookup_app_new_Some {A} (h news : list A) (k : nat) (a : A) :
  news !! k = Some a → (h ++ news) !! (length h + k)%nat = Some a.
Proof. intros <-. apply lookup_app_new. Qed.

Lemma run_load_old (l : loc) (a : ndarray F) (h news : list (ndarray F)) insts :
  h !! l = Some a →
  load l {| arrays := h ++ news; instances := insts |}
  = (Ret a, {| arrays := h ++ news; instances := insts |}).
Proof. intros Hl. unfold load. simpl. by rewrite (lookup_app_l_Some _ _ _ _ Hl). Qed.

Lemma run_load_new (k : nat) (a : ndarray F) (h news : list (ndarray F)) insts :
  news !! k = Some a →
  load (length h + k)%nat {| arrays := h ++ news; instances := insts |}
  = (Ret a, {| arrays := h ++ news; instances := insts |}).
Proof. intros Hl. unfold load. simpl. by rewrite lookup_app_new, Hl. Qed.

Lemma run_update_new (k : nat) (f : ndarray F → outcome (ndarray F)) (a a' : ndarray F)
    (h news : list (ndarray F)) insts :
  news !! k = Some a → f a = Ret a' →
  update (length h + k)%nat f {| arrays := h ++ news; instances := insts |}
  = (Ret tt, {| arrays := h ++ <[k := a']> news; instances := insts |}).
Proof.
  intros Hl Hf. unfold update. simpl.
  by rewrite lookup_app_new, Hl, Hf, insert_app_r.
Qed.

Lemma run_getattr {A} (self : loc) (attr : attrs → A) (o : attrs) arrs insts :
  (self < length insts)%nat →
  getattr self attr {| arrays := arrs; instances := <[self := o]> insts |}
  = (Ret (attr o), {| arrays := arrs; instances := <[self := o]> insts |}).
Proof. intros Hs. unfold getattr. simpl. by rewrite list_lookup_insert_eq. Qed.

Lemma run_setattr (self : loc) (set : attrs → attrs) (o : attrs) arrs insts :
  (self < length insts)%nat →
  setattr self set {| arrays := arrs; instances := <[self := o]> insts |}
  = (Ret tt, {| arrays := arrs; instances := <[self := set o]> insts |}).
Proof.
  intros Hs. unfold setattr. simpl.
  by rewrite list_lookup_insert_eq, list_insert_insert_eq.
Qed.

(** *** Arrays of polygons *)

Lemma dot_rotation (pts : polygon) (angle : F) :
  np.dot (Mat 2 (rows_of pts)) (get_rotation_matrix angle)
  = Ret (Mat 2 (rows_of (map (rotate angle) pts))).
Proof.
  unfold np.dot, get_rotation_matrix, rows_of. simpl.
  by rewrite !map_map.
Qed.

Lemma T_rows_of (pts : polygon) : np.T (Mat 2 (rows_of pts)) = columns_of pts.
Proof.
  unfold np.T, columns_of, rows_of, np.column. simpl.
  by rewrite length_map, !map_map.
Qed.

Lemma add_centre (pts : polygon) (c1 c2 : F) :
  np.add (Mat 2 (rows_of pts)) (Vec [c1; c2])
  = Ret (Mat 2 (rows_of (map (translate (c1, c2)) pts))).
Proof.
  unfold np.add, np.elementwise, rows_of. simpl.
  by rewrite !map_map.
Qed.

Lemma subtract_centre (pts : polygon) (c1 c2 : F) :
  np.subtract (Mat 2 (rows_of pts)) (Vec [c1; c2])
  = Ret (Mat 2 (rows_of (map (fun p => (p.1 - c1, p.2 - c2)) pts))).
Proof.
  unfold np.subtract, np.elementwise, rows_of. simpl.
  by rewrite !map_map.
Qed.

End Running.

Create HintDb ndarray discriminated.
#[export] Hint Resolve dot_rotation add_centre subtract_centre : ndarray.


(** Side conditions of a step: a lookup in the store or the value of an
    array expression. *)
Ltac run_side :=
  cbv beta;
  first [ eassumption
        | solve [auto with ndarray nocore]
        | apply lookup_app_new_Some; reflexivity
        | apply lookup_app_l_Some; eassumption
        | reflexivity ].

(** Runs a statement on a store of the form [h ++ news], statement by
    statement; [tac] runs the calls of methods. *)
Ltac run_with tac :=
  cbv beta iota zeta;
  lazymatch goal with
  | |- mbind _ _ _ = _ => eapply run_bind; [run_with tac | run_with tac]
  | |- mret _ _ = _ => apply run_ret
  | |- lift _ _ = _ => apply run_lift; run_side
  | |- new_array _ _ = _ => apply run_new_array
  | |- load _ _ = _ =>
      first [ apply run_load_new; reflexivity
            | apply run_load_old; eassumption ]
  | |- update _ _ _ = _ => eapply run_update_new; [reflexivity | run_side]
  | |- getattr _ _ _ = _ => apply run_getattr; assumption
  | |- setattr _ _ _ = _ => apply run_setattr; assumption
  | |- copy _ _ = _ => unfold copy; run_with tac
  | |- _ => first [ tac | reflexivity ]
  end.

Ltac run := run_with fail.

Section Methods.
Context `{FloatOps F}.
Local Open Scope flt_scope.
Local Abbreviation store := (@CarDescription.store F).
Local Abbreviation attrs := (@CarDescription.attrs F).
Local Abbreviation polygon := (@polygon F).

Lemma frenet_to_cartesian_run (self : loc) (s e mu v d : F)
    (h : list (ndarray F)) (insts : list attrs) :
  let r := lit 50 in
  frenet_to_cartesian self [s; e; mu; v; d] {| arrays := h; instances := insts |}
  = (Ret (pose_x r s e mu, pose_y r s e mu, v, pose_yaw r s mu, d),
     {| arrays := h ++ [Vec [pose_x r s e mu; pose_y r s e mu]];
        instances := insts |}).
Proof.
  intros r. rewrite <- (app_nil_r h) at 1.
  unfold frenet_to_cartesian. run.
Qed.

Lemma transform_run (self point : loc) (o : attrs) (pts : polygon) (px py yaw : F)
    (h : list (ndarray F)) (insts : list attrs) :
  insts !! self = Some o →
  x o = Some px → y o = Some py →
  h !! yaw_vector o = Some (get_rotation_matrix yaw) →
  h !! point = Some (Mat 2 (rows_of pts)) →
  transform self point {| arrays := h; instances := insts |}
  = (Ret (length h),
     {| arrays := h ++ [columns_of (map (to_world (px, py) yaw) pts)];
        instances := insts |}).
Proof.
  intros Hself Hx Hy Hyaw Hpoint.
  assert (Hlt : (self < length insts)%nat) by (by eapply lookup_lt_Some).
  rewrite <- (list_insert_id insts self o Hself).
  rewrite <- (app_nil_r h) at 1.
  unfold transform.
  eapply run_bind; [run|]. eapply run_bind; [run|]. eapply run_bind; [run|].
  eapply run_bind; [run|]. eapply run_bind; [run|]. rewrite Hx.
  eapply run_bind.
  { eapply run_update_new; [reflexivity|]. cbv beta. rewrite T_rows_of. reflexivity. }
  eapply run_bind; [run|]. rewrite Hy.
  eapply run_bind.
  { eapply run_update_new; [reflexivity|]. reflexivity. }
  cbv beta. unfold mret, M_ret. f_equal.
  - f_equal. simpl. lia.
  - f_equal. simpl. unfold columns_of, to_world.
    rewrite !length_map, !map_map. reflexivity.
Qed.

Lemma transform_run_new (self point : loc) (o : attrs) (pts : polygon) (px py yaw : F)
    (h news : list (ndarray F)) (insts : list attrs) :
  (self < length insts)%nat →
  x o = Some px → y o = Some py →
  (h ++ news) !! yaw_vector o = Some (get_rotation_matrix yaw) →
  (h ++ news) !! point = Some (Mat 2 (rows_of pts)) →
  transform self point {| arrays := h ++ news; instances := <[self := o]> insts |}
  = (Ret (length h + length news)%nat,
     {| arrays := h ++ (news ++ [columns_of (map (to_world (px, py) yaw) pts)]);
        instances := <[self := o]> insts |}).
Proof.
  intros Hself Hx Hy Hyaw Hpoint.
  rewrite (transform_run self point o pts px py yaw); try done.
  - by rewrite length_app, app_assoc.
  - by apply list_lookup_insert_eq.
Qed.

Lemma plot_car_run (self : loc) (o : attrs) (sh : shape) (s e mu v d : F)
    (h : list (ndarray F)) (insts : list attrs) :
  insts !! self = Some o →
  h !! outlines o = Some (Mat 2 (rows_of (body sh))) →
  h !! rear_right_wheel o = Some (Mat 2 (rows_of (wheel_rr sh))) →
  h !! rear_left_wheel o = Some (Mat 2 (rows_of (wheel_rl sh))) →
  h !! fr_wheel_origin o = Some (Mat 2 (rows_of (wheel_fr sh))) →
  h !! fr_wheel_center o = Some (Vec [(centre_fr sh).1; (centre_fr sh).2]) →
  h !! fl_wheel_origin o = Some (Mat 2 (rows_of (wheel_fl sh))) →
  h !! fl_wheel_center o = Some (Vec [(centre_fl sh).1; (centre_fl sh).2]) →
  let r := lit 50 in
  let n := length h in
  plot_car self [s; e; mu; v; d] {| arrays := h; instances := insts |}
  = (Ret (Some (pose_x r s e mu), Some (pose_y r s e mu),
          n + 7, n + 10, n + 8, n + 11, n + 9)%nat,
     {| arrays := h ++ plot_car_arrays sh s e mu v d;
        instances :=
          <[self := set_yaw_vector (n + 1)%nat
                      (set_y (Some (pose_y r s e mu))
                         (set_x (Some (pose_x r s e mu)) o))]> insts |}).
Proof.
  intros Hself Hbody Hrr Hrl Hfr Hcfr Hfl Hcfl r n.
  assert (Hlt : (self < length insts)%nat) by (by eapply lookup_lt_Some).
  unfold plot_car.
  eapply run_bind; [apply frenet_to_cartesian_run|].
  rewrite <- (list_insert_id insts self o Hself) at 1.
  eapply eq_trans.
  { run_with ltac:(eapply transform_run_new;
                   [assumption | reflexivity | reflexivity | run_side | run_side]). }
  subst r n. simpl. unfold plot_car_arrays, steer_pivot.
  rewrite !map_map. reflexivity.
Qed.
End Methods.

(** ** [__init__] builds the shape of section 4.2 *)

Section Init.
Context `{FloatOps F}.
Local Open Scope flt_scope.
Local Abbreviation store := (@CarDescription.store F).
Local Abbreviation attrs := (@CarDescription.attrs F).
Local Abbreviation polygon := (@polygon F).

Lemma init_run (u : nat → nat → F) (h : list (ndarray F)) (insts : list attrs) :
  __init__ u {| arrays := h; instances := insts |}
  = (Ret (length insts),
     {| arrays := h ++ init_arrays u;
        instances := insts ++ [init_attrs (length h)] |}).
Proof.
  rewrite <- (app_nil_r h) at 1.
  unfold __init__. eapply eq_trans; [run|].
  reflexivity.
Qed.

Lemma init_holds (u : nat → nat → F) (σ : store) :
  holds (__init__ u σ).2 (length (instances σ)) car_shape.
Proof.
  destruct σ as [h insts]. rewrite init_run. cbn [snd arrays instances].
  exists (init_attrs (length h)). split; [apply list_lookup_middle; done|].
  repeat split; apply lookup_app_new_Some; reflexivity.
Qed.

Lemma plot_car_holds (σ : store) (self : loc) (sh : shape) (s e mu v d : F) :
  holds σ self sh → holds (plot_car self [s; e; mu; v; d] σ).2 self sh.
Proof.
  intros (o & Hself & Hb & Hrr & Hrl & Hfr & Hcfr & Hfl & Hcfl).
  destruct σ as [h insts]. cbn [arrays instances] in *.
  rewrite (plot_car_run self o sh) by done. cbn [snd arrays instances].
  eexists. split; [apply list_lookup_insert_eq; by eapply lookup_lt_Some|].
  cbn [outlines rear_right_wheel rear_left_wheel fr_wheel_origin fr_wheel_center
       fl_wheel_origin fl_wheel_center set_x set_y set_yaw_vector].
  repeat split; by apply lookup_app_l_Some.
Qed.
End Init.

(** ** What a statement may change *)

Section Frame.
Context `{FloatOps F}.
Local Open Scope flt_scope.
Local Abbreviation store := (@CarDescription.store F).
Local Abbreviation attrs := (@CarDescription.attrs F).
Local Abbreviation M := (@CarDescription.M F).
Local Abbreviation keeps := (keeps (F:=F)).

Lemma same_shape_refl (o : attrs) : same_shape o o.
Proof. by repeat split. Qed.

Lemma frame_refl (σ : store) (self : loc) : frame (length (arrays σ)) self σ σ.
Proof.
  repeat split; try done. intros j o Hj. exists o. split; [done|].
  split; [apply same_shape_refl|done].
Qed.

Lemma keeps_ret {A} n self (a : A) (Q : A → Prop) : Q a → keeps n self (mret a) Q.
Proof. intros HQ σ0 σ Hf. split; [done|]. by intros ? [= <-]. Qed.

Lemma keeps_bind {A B} n self (c : M A) (f : A → M B) (Q : A → Prop) (R : B → Prop) :
  keeps n self c Q → (∀ a, Q a → keeps n self (f a) R) → keeps n self (c ≫= f) R.
Proof.
  intros Hc Hf σ0 σ Hfr. destruct (Hc σ0 σ Hfr) as [Hfr1 HQ].
  unfold mbind, M_bind. destruct (c σ) as [[a|e] σ1]; simpl in *.
  - apply (Hf a); [by apply HQ|done].
  - split; [done|]. intros ? [=].
Qed.

Lemma keeps_weaken {A} n self (c : M A) (Q R : A → Prop) :
  keeps n self c Q → (∀ a, Q a → R a) → keeps n self c R.
Proof. intros Hc HQR σ0 σ Hfr. destruct (Hc σ0 σ Hfr). split; auto. Qed.

Lemma keeps_lift {A} n self (c : outcome A) : keeps n self (lift c) (fun _ => True).
Proof. intros σ0 σ Hfr. by split. Qed.

Lemma keeps_load n self (l : loc) : keeps n self (load l) (fun _ => True).
Proof. intros σ0 σ Hfr. unfold load. destruct (arrays σ !! l); by split. Qed.

Lemma keeps_getattr {A} n self (j : loc) (attr : attrs → A) :
  keeps n self (getattr j attr) (fun _ => True).
Proof. intros σ0 σ Hfr. unfold getattr. destruct (instances σ !! j); by split. Qed.

Lemma keeps_new_array n self (a : ndarray F) :
  keeps n self (new_array a) (fun l => (n ≤ l)%nat).
Proof.
  intros σ0 σ (Htake & Hlen & Hinst). split.
  - split; [|split; [|done]]; simpl.
    + by rewrite take_app_le.
    + rewrite length_app. lia.
  - intros l [= <-]. done.
Qed.

Lemma keeps_update n self (l : loc) (f : ndarray F → outcome (ndarray F)) :
  (n ≤ l)%nat → keeps n self (update l f) (fun _ => True).
Proof.
  intros Hl σ0 σ (Htake & Hlen & Hinst). unfold update.
  destruct (arrays σ !! l) as [a|]; [|by split].
  destruct (f a) as [a'|e]; [|by split].
  split; [|done]. split; [|split; [|done]]; simpl.
  - by rewrite take_insert_ge.
  - by rewrite length_insert.
Qed.

Lemma keeps_setattr n self (set : attrs → attrs) :
  (∀ o, same_shape o (set o)) → keeps n self (setattr self set) (fun _ => True).
Proof.
  intros Hset σ0 σ (Htake & Hlen & Hilen & Hinst). unfold setattr.
  destruct (instances σ !! self) as [o1|] eqn:Hself; [|by split].
  split; [|done]. split; [done|]. split; [done|]. simpl.
  split; [by rewrite length_insert|].
  intros j o Hj. destruct (Hinst j o Hj) as (o' & Hj' & Hsh & Hne).
  destruct (decide (j = self)) as [->|Hjs].
  - exists (set o1). rewrite list_lookup_insert_eq by (by eapply lookup_lt_Some).
    split; [done|]. split; [|done].
    assert (o' = o1) as -> by congruence.
    pose proof (Hset o1) as Hs. unfold same_shape in *.
    destruct Hs as (-> & -> & -> & -> & -> & -> & ->). done.
  - exists o'. by rewrite list_lookup_insert_ne.
Qed.
End Frame.

(** Applies the rule of [keeps] for the statement at hand. *)
Ltac keeps_step :=
  lazymatch goal with
  | |- keeps _ _ (mbind _ _) _ => eapply keeps_bind; [keeps_step | intros ? ?; keeps_step]
  | |- keeps _ _ (mret _) _ => apply keeps_ret; try done
  | |- keeps _ _ (lift _) _ => eapply keeps_weaken; [apply keeps_lift | done]
  | |- keeps _ _ (load _) _ => eapply keeps_weaken; [apply keeps_load | done]
  | |- keeps _ _ (getattr _ _) _ => eapply keeps_weaken; [apply keeps_getattr | done]
  | |- keeps _ _ (new_array _) _ => apply keeps_new_array
  | |- keeps _ _ (update _ _) _ =>
      eapply keeps_weaken; [apply keeps_update; assumption | done]
  | |- keeps _ _ (setattr _ _) _ =>
      eapply keeps_weaken; [apply keeps_setattr; intros ?; by repeat split | done]
  | |- keeps _ _ (copy _) _ => unfold copy; keeps_step
  | |- keeps _ _ (match ?p with _ => _ end) _ => destruct p; keeps_step
  | |- _ => idtac
  end.

Section FrameMethods.
Context `{FloatOps F}.
Local Open Scope flt_scope.
Local Abbreviation store := (@CarDescription.store F).
Local Abbreviation keeps := (keeps (F:=F)).

Lemma keeps_transform n self (point : loc) :
  keeps n self (transform self point) (fun l => (n ≤ l)%nat).
Proof. unfold transform. keeps_step. Qed.

Lemma keeps_frenet_to_cartesian n self (x_road : list F) :
  keeps n self (frenet_to_cartesian self x_road) (fun _ => True).
Proof. unfold frenet_to_cartesian. keeps_step. Qed.

Lemma keeps_plot_car n self (x_road : list F) :
  keeps n self (plot_car self x_road) (fun _ => True).
Proof.
  unfold plot_car.
  eapply keeps_bind; [apply keeps_frenet_to_cartesian|]. intros x_global _.
  destruct x_global as [[[[gx gy] gv] yaw] steer].
  repeat first
    [ eapply keeps_bind; [apply keeps_transform | intros ? ?]
    | eapply keeps_bind;
      [eapply keeps_bind; [keeps_step | intros ? ?; apply keeps_transform] | intros ? ?]
    | eapply keeps_bind; [solve [keeps_step] | intros ? ?] ].
  keeps_step.
Qed.
End FrameMethods.

(** * The claims on [src/tools.py] *)

Section ToolsClaims.
Context `{FloatOps F} `{Interpolant F}.
Local Open Scope flt_scope.

(** C2.  For every sample index [i] of a constructed curve, the heading is
    [yaw[i] = atan2(dy, dx)] and the curvature is
    [k[i] = (ddy*dx - ddx*dy) / (dx*dx + dy*dy) ** 1.5], where [dx], [dy]
    and [ddx], [ddy] are the first and second derivatives of the fitted
    interpolant of the x and of the y coordinates at sample [i]. *)
Theorem heading_and_curvature_of_samples (x y : list F) ds bc cx cy yaw k :
  generate_cubic_spline x y ds bc = Ret (cx, cy, yaw, k) →
  ∃ cs s, initialise_cubic_spline x y ds bc = Ret (cs, s)
    ∧ length yaw = length s ∧ length k = length s
    ∧ ∀ i si, s !! i = Some si →
        let dx := interp x y x bc 1 si in
        let dy := interp x y y bc 1 si in
        let ddx := interp x y x bc 2 si in
        let ddy := interp x y y bc 2 si in
        yaw !! i = Some (fatan2 dy dx)
        ∧ k !! i = Some ((ddy * dx - ddx * dy) / ((dx * dx + dy * dy) ** lit 1.5)).
Proof.
  intros Hgen.
  destruct (initialise_cubic_spline x y ds bc) as [[cs s]|e] eqn:Hinit.
  - rewrite (generate_cubic_spline_eq x y ds bc cs s Hinit) in Hgen.
    injection Hgen as <- <- <- <-.
    exists cs, s. rewrite !length_map. do 3 (split; [done|]).
    intros i si Hsi. split; by rewrite list_lookup_fmap, Hsi.
  - unfold generate_cubic_spline in Hgen. rewrite Hinit in Hgen. discriminate.
Qed.

(** C4, amended.  Whenever the curve is constructed, [ds] is not 0 and the
    arrays [x], [y], [yaw], [k] all have the length of the sample array.
    That length is the one [np.arange] computes: the ceiling, not the floor,
    of the quotient [(distance[-1] - 0) / ds], quotient and ceiling being
    those of the arithmetic the code runs on (the ceiling is taken of the
    quotient as that arithmetic has rounded it), and no sample when that
    ceiling is not positive.  The samples are [0 + i ds] for [i] below the
    count. *)
Theorem sample_count_is_ceiling (x y : list F) ds bc cx cy yaw k :
  generate_cubic_spline x y ds bc = Ret (cx, cy, yaw, k) →
  ∃ cs s total n,
    initialise_cubic_spline x y ds bc = Ret (cs, s)
    ∧ np.item_last (chord_distance x y) = Ret total
    ∧ feqb ds (lit 0) = false
    ∧ fceil ((total - lit 0) / ds) = Some n
    ∧ length s = Z.to_nat n
    ∧ length cx = length s ∧ length cy = length s
    ∧ length yaw = length s ∧ length k = length s
    ∧ ∀ i, (i < length s)%nat → s !! i = Some (lit 0 + of_nat i * ds).
Proof.
  intros Hgen.
  destruct (initialise_cubic_spline x y ds bc) as [[cs s]|e] eqn:Hinit.
  - rewrite (generate_cubic_spline_eq x y ds bc cs s Hinit) in Hgen.
    injection Hgen as <- <- <- <-.
    destruct (initialise_cubic_spline_Ret x y ds bc cs s Hinit)
      as (_ & _ & total & Htotal & Hs).
    unfold np.arange in Hs.
    destruct (feqb ds (lit 0)) eqn:Hds; [discriminate|].
    destruct (fceil ((total - lit 0) / ds)) as [n|] eqn:Hn; [|discriminate].
    injection Hs as <-.
    exists cs, (map (fun i => lit 0 + of_nat i * ds) (seq 0 (Z.to_nat n))), total, n.
    rewrite !length_map, length_seq. do 9 (split; [done|]).
    intros i Hi. change (map ?f ?l) with (f <$> l).
    by rewrite list_lookup_fmap, lookup_seq_lt.
  - unfold generate_cubic_spline in Hgen. rewrite Hinit in Hgen. discriminate.
Qed.
End ToolsClaims.

Section RealClaims.
Local Open Scope R_scope.

Lemma two_waypoints_non_degenerate : non_degenerate two_waypoints.
Proof.
  intros i p q Hp Hq. destruct i as [|[|i]]; try done.
  injection Hp as <-. injection Hq as <-. intros [= Hx]. lra.
Qed.

Lemma two_waypoints_total : total_chord_length two_waypoints = 3.
Proof.
  unfold total_chord_length, two_waypoints. simpl. unfold chord. simpl.
  replace ((3 - 0) * (3 - 0) + (0 - 0) * (0 - 0)) with (3 * 3) by lra.
  rewrite sqrt_square by lra. lra.
Qed.

Lemma samples_3_2 : samples 3 2 = [INR 0 * 2; INR 1 * 2].
Proof.
  unfold samples. replace (Zceil (3 / 2)) with 2%Z; [done|].
  symmetry. apply Zceil_eq. lra.
Qed.

Lemma generate_two_waypoints `{Interpolant R} :
  ∃ cx cy yaw k,
    generate_cubic_spline (xs two_waypoints) (ys two_waypoints) 2 "natural"
    = Ret (cx, cy, yaw, k)
    ∧ length cx = 2%nat ∧ length cy = 2%nat ∧ length yaw = 2%nat ∧ length k = 2%nat.
Proof.
  pose proof (initialise_cubic_spline_fits two_waypoints 2 "natural") as Hinit.
  rewrite two_waypoints_total, samples_3_2 in Hinit.
  do 4 eexists. split.
  - eapply generate_cubic_spline_eq, Hinit;
      [simpl; lia | apply two_waypoints_non_degenerate | lra | done].
  - done.
Qed.

(** The amended C4 at two waypoints three units apart, sampled every two
    units. *)
Lemma sample_count_is_ceiling_witness :
  ∃ cx cy yaw k,
    generate_cubic_spline (xs two_waypoints) (ys two_waypoints) 2 "natural"
    = Ret (cx, cy, yaw, k)
    ∧ ∃ cs s total n,
        initialise_cubic_spline (xs two_waypoints) (ys two_waypoints) 2 "natural"
        = Ret (cs, s)
        ∧ np.item_last (chord_distance (xs two_waypoints) (ys two_waypoints)) = Ret total
        ∧ feqb 2 (lit 0) = false
        ∧ fceil ((total - lit 0) / 2)%flt = Some n
        ∧ length s = Z.to_nat n
        ∧ length cx = length s ∧ length cy = length s
        ∧ length yaw = length s ∧ length k = length s
        ∧ ∀ i, (i < length s)%nat → s !! i = Some (lit 0 + of_nat i * 2)%flt.
Proof.
  destruct generate_two_waypoints as (cx & cy & yaw & k & Hgen & _).
  exists cx, cy, yaw, k. split; [exact Hgen|].
  exact (sample_count_is_ceiling _ _ _ _ _ _ _ _ Hgen).
Defined.

(** C4 as stated fails: two waypoints three units apart, sampled every two
    units ([0 < 2 < 3]), give arrays of length 2, while the floor of [3 / 2]
    is 1. *)
Lemma sample_count_is_not_floor :
  ∃ cx cy yaw k,
    generate_cubic_spline (xs two_waypoints) (ys two_waypoints) 2 "natural"
    = Ret (cx, cy, yaw, k)
    ∧ non_degenerate two_waypoints
    ∧ 0 < 2 < total_chord_length two_waypoints
    ∧ length cx = 2%nat ∧ length cy = 2%nat ∧ length yaw = 2%nat ∧ length k = 2%nat
    ∧ is_floor 1 (total_chord_length two_waypoints / 2)
    ∧ ¬ is_floor (length cx) (total_chord_length two_waypoints / 2).
Proof.
  destruct generate_two_waypoints as (cx & cy & yaw & k & Hgen & Hcx & Hcy & Hyaw & Hk).
  exists cx, cy, yaw, k. rewrite Hcx, two_waypoints_total.
  split; [done|]. split; [apply two_waypoints_non_degenerate|].
  split; [lra|]. do 4 (split; [done|]).
  unfold is_floor. simpl. split; [lra|]. intros [? ?]. lra.
Qed.

(** C5.  For every waypoint list with two identical consecutive points,
    curve construction raises and returns no array, whatever the sampling
    interval and the boundary condition; for a sampling interval other than
    zero the error is the [ValueError] of the spline constructor followed by
    the hint that names consecutive duplicates as the likely cause. *)
Theorem duplicate_waypoints_raise `{Interpolant R} (wps : list (R * R)) (ds : R) (bc : string) :
  consecutive_duplicate wps →
  is_Raise (initialise_cubic_spline (xs wps) (ys wps) ds bc)
  ∧ is_Raise (generate_cubic_spline (xs wps) (ys wps) ds bc)
  ∧ (ds ≠ 0 →
     let e := ValueError ("`x` must be strictly increasing sequence." +:+ duplicate_hint) in
     initialise_cubic_spline (xs wps) (ys wps) ds bc = Raise e
     ∧ generate_cubic_spline (xs wps) (ys wps) ds bc = Raise e).
Proof.
  intros Hdup.
  assert (Hne : ds ≠ 0 →
     let e := ValueError ("`x` must be strictly increasing sequence." +:+ duplicate_hint) in
     initialise_cubic_spline (xs wps) (ys wps) ds bc = Raise e
     ∧ generate_cubic_spline (xs wps) (ys wps) ds bc = Raise e).
  { intros Hds e.
    pose proof (initialise_cubic_spline_duplicate wps ds bc Hdup Hds) as Hi.
    split; [exact Hi|]. by apply generate_Raise. }
  split; [|split; [|exact Hne]].
  - destruct (Req_dec_T ds 0) as [->|Hds].
    + apply initialise_cubic_spline_R_zero.
    + destruct (Hne Hds) as [-> _]. done.
  - destruct (Req_dec_T ds 0) as [->|Hds].
    + pose proof (initialise_cubic_spline_R_zero wps bc) as Hz.
      destruct (initialise_cubic_spline _ _ _ _) as [?|e] eqn:Hi; [done|].
      by rewrite (generate_Raise _ _ _ _ _ Hi).
    + destruct (Hne Hds) as [_ ->]. done.
Qed.

(** C5 at a waypoint repeated once, sampled every unit. *)
Lemma duplicate_waypoints_raise_witness :
  consecutive_duplicate repeated_waypoint
  ∧ is_Raise (initialise_cubic_spline (xs repeated_waypoint) (ys repeated_waypoint) 1 "natural")
  ∧ is_Raise (generate_cubic_spline (xs repeated_waypoint) (ys repeated_waypoint) 1 "natural")
  ∧ (1 ≠ 0 →
     let e := ValueError ("`x` must be strictly increasing sequence." +:+ duplicate_hint) in
     initialise_cubic_spline (xs repeated_waypoint) (ys repeated_waypoint) 1 "natural" = Raise e
     ∧ generate_cubic_spline (xs repeated_waypoint) (ys repeated_waypoint) 1 "natural" = Raise e).
Proof.
  assert (Hdup : consecutive_duplicate repeated_waypoint).
  { exists 0%nat, (1, 1). split; reflexivity. }
  split; [exact Hdup|].
  exact (duplicate_waypoints_raise repeated_waypoint 1 "natural" Hdup).
Defined.




(** C2 at two waypoints three units apart, sampled every two units. *)
Lemma heading_and_curvature_of_samples_witness :
  ∃ cx cy yaw k,
    generate_cubic_spline (xs two_waypoints) (ys two_waypoints) 2 "natural"
    = Ret (cx, cy, yaw, k)
    ∧ ∃ cs s, initialise_cubic_spline (xs two_waypoints) (ys two_waypoints) 2 "natural"
              = Ret (cs, s)
      ∧ length yaw = length s ∧ length k = length s
      ∧ ∀ i si, s !! i = Some si →
          let x := xs two_waypoints in
          let y := ys two_waypoints in
          let dx := interp x y x "natural" 1 si in
          let dy := interp x y y "natural" 1 si in
          let ddx := interp x y x "natural" 2 si in
          let ddy := interp x y y "natural" 2 si in
          yaw !! i = Some (Ratan2 dy dx)
          ∧ k !! i = Some ((ddy * dx - ddx * dy) / Rpow (dx * dx + dy * dy) (Q2R 1.5)).
Proof.
  destruct generate_two_waypoints as (cx & cy & yaw & k & Hgen & _).
  exists cx, cy, yaw, k. split; [exact Hgen|].
  exact (heading_and_curvature_of_samples _ _ _ _ _ _ _ _ Hgen).
Defined.
End RealClaims.

(** * The claims on [src/description.py] *)

Section PoseClaims.
Context `{FloatOps F}.
Local Open Scope flt_scope.
Local Abbreviation store := (@CarDescription.store F).
Local Abbreviation attrs := (@CarDescription.attrs F).

Lemma frenet_to_cartesian_outcome (self : loc) (x_road : list F) (σ : store) :
  (frenet_to_cartesian self x_road σ).1 = frenet_value x_road.
Proof.
  destruct σ as [h insts].
  destruct x_road as [|s [|e [|mu [|v [|d [|? ?]]]]]]; try reflexivity.
  by rewrite frenet_to_cartesian_run.
Qed.

(** C1.  For every path-relative state [(s, e, mu, v, d)], on every instance
    and in every store, [frenet_to_cartesian] returns [(x, y, v, yaw, d)]
    where [yaw = mu + (pi/2 + s/r)] and
    [(x, y) = r (cos(s/r), sin(s/r)) + e (cos(pi + s/r), sin(pi + s/r))
              + l_r (cos yaw, sin yaw)], with [r = 50]; [v] and [d] are passed
    through unchanged. *)
Theorem frenet_to_cartesian_formula (self : loc) (s e mu v d : F) (σ : store) :
  let r := lit 50 in
  let yaw := mu + (fpi / lit 2 + s / r) in
  (frenet_to_cartesian self [s; e; mu; v; d] σ).1
  = Ret (r * fcos (s / r) + e * fcos (fpi + s / r) + CarParameters.l_r * fcos yaw,
         r * fsin (s / r) + e * fsin (fpi + s / r) + CarParameters.l_r * fsin yaw,
         v, yaw, d).
Proof. intros r yaw. destruct σ as [h insts]. by rewrite frenet_to_cartesian_run. Qed.

(** C10.  [frenet_to_cartesian] is a function of its argument alone: two
    calls with equal arguments, on any instances and in any stores (hence
    after any earlier calls of [plot_car]), have equal outcomes; the outcome
    is [frenet_value x_road], which fixes the path radius to 50 and mentions
    neither the instance nor the store; no attribute of any instance is
    written and no array already in the store is changed. *)
Theorem frenet_to_cartesian_pure (self1 self2 : loc) (x_road : list F) (σ1 σ2 : store) :
  (frenet_to_cartesian self1 x_road σ1).1 = (frenet_to_cartesian self2 x_road σ2).1
  ∧ (frenet_to_cartesian self1 x_road σ1).1 = frenet_value x_road
  ∧ instances (frenet_to_cartesian self1 x_road σ1).2 = instances σ1
  ∧ ∀ l a, arrays σ1 !! l = Some a →
      arrays (frenet_to_cartesian self1 x_road σ1).2 !! l = Some a.
Proof.
  split; [by rewrite !frenet_to_cartesian_outcome|].
  split; [apply frenet_to_cartesian_outcome|].
  destruct σ1 as [h insts].
  destruct x_road as [|s [|e [|mu [|v [|d [|extra rest]]]]]];
    try (split; [reflexivity | intros l a Hl; exact Hl]).
  rewrite frenet_to_cartesian_run. split; [done|].
  intros l a Hl. by apply lookup_app_l_Some.
Qed.

(** C3.  For every state, on an instance that stores a shape, [plot_car]
    returns the world position and five arrays: the body outline and the two
    rear wheels as stored, each vertex right-multiplied by [R(yaw)] and then
    translated by [(x, y)]; and the two front wheels, each vertex of the
    polygon relative to the face centre first right-multiplied by [R(steer)],
    then moved back by the face centre, and only then right-multiplied by
    [R(yaw)] and translated by [(x, y)].  The cached rotation matrix is
    [[cos yaw, sin yaw], [-sin yaw, cos yaw]]. *)
Theorem plot_car_composes (σ : store) (self : loc) (sh : shape) (s e mu v d : F) :
  holds σ self sh →
  let r := lit 50 in
  let pos := (pose_x r s e mu, pose_y r s e mu) in
  let yaw := pose_yaw r s mu in
  ∃ outlines_w fr_w rr_w fl_w rl_w σ',
    plot_car self [s; e; mu; v; d] σ
    = (Ret (Some pos.1, Some pos.2, outlines_w, fr_w, rr_w, fl_w, rl_w), σ')
    ∧ arrays σ' !! outlines_w = Some (columns_of (map (to_world pos yaw) (body sh)))
    ∧ arrays σ' !! rr_w = Some (columns_of (map (to_world pos yaw) (wheel_rr sh)))
    ∧ arrays σ' !! rl_w = Some (columns_of (map (to_world pos yaw) (wheel_rl sh)))
    ∧ arrays σ' !! fr_w
      = Some (columns_of (map (to_world pos yaw)
                            (map (steer_pivot d (centre_fr sh)) (wheel_fr sh))))
    ∧ arrays σ' !! fl_w
      = Some (columns_of (map (to_world pos yaw)
                            (map (steer_pivot d (centre_fl sh)) (wheel_fl sh))))
    ∧ ∃ o', instances σ' !! self = Some o'
        ∧ x o' = Some pos.1 ∧ y o' = Some pos.2
        ∧ arrays σ' !! yaw_vector o'
          = Some (Mat 2 [ [fcos yaw; fsin yaw]; [- fsin yaw; fcos yaw] ]).
Proof.
  intros (o & Hself & Hb & Hrr & Hrl & Hfr & Hcfr & Hfl & Hcfl) r pos yaw.
  destruct σ as [h insts]. cbn [arrays instances] in *.
  do 6 eexists. split; [by apply (plot_car_run self o sh)|].
  cbn [arrays instances].
  do 5 (split; [apply lookup_app_new_Some; reflexivity|]).
  eexists. split; [apply list_lookup_insert_eq; by eapply lookup_lt_Some|].
  split; [reflexivity|]. split; [reflexivity|].
  apply lookup_app_new_Some. reflexivity.
Qed.

Lemma closed_map (f : F * F → F * F) (pts : polygon) : closed pts → closed (map f pts).
Proof.
  intros [Hlen Hhl]. split; [by rewrite length_map|].
  change (map f pts) with (f <$> pts). rewrite fmap_last, <- Hhl.
  by destruct pts.
Qed.

Lemma car_shape_closed :
  closed (body car_shape) ∧ closed (wheel_rr car_shape) ∧ closed (wheel_rl car_shape)
  ∧ closed (wheel_fr car_shape) ∧ closed (wheel_fl car_shape).
Proof. repeat split; simpl; lia. Qed.

(** C9.  For every state, on an instance that stores the shape which
    [__init__] builds, each of the five polygons [plot_car] returns is a
    sequence of vertices (vertex [i] being column [i] of the returned array)
    whose first and last vertices are identical. *)
Theorem plot_car_polygons_closed (σ : store) (self : loc) (s e mu v d : F) :
  holds σ self car_shape →
  ∃ px py outlines_w fr_w rr_w fl_w rl_w σ' Po Pfr Prr Pfl Prl,
    plot_car self [s; e; mu; v; d] σ
    = (Ret (px, py, outlines_w, fr_w, rr_w, fl_w, rl_w), σ')
    ∧ arrays σ' !! outlines_w = Some (columns_of Po) ∧ closed Po
    ∧ arrays σ' !! fr_w = Some (columns_of Pfr) ∧ closed Pfr
    ∧ arrays σ' !! rr_w = Some (columns_of Prr) ∧ closed Prr
    ∧ arrays σ' !! fl_w = Some (columns_of Pfl) ∧ closed Pfl
    ∧ arrays σ' !! rl_w = Some (columns_of Prl) ∧ closed Prl.
Proof.
  intros (o & Hself & Hb & Hrr & Hrl & Hfr & Hcfr & Hfl & Hcfl).
  destruct σ as [h insts]. cbn [arrays instances] in *.
  destruct car_shape_closed as (Cb & Crr & Crl & Cfr & Cfl).
  do 13 eexists. split; [by apply (plot_car_run self o car_shape)|].
  cbn [arrays instances].
  do 4 (split; [apply lookup_app_new_Some; reflexivity|];
        split; [repeat apply closed_map; assumption|]).
  split; [apply lookup_app_new_Some; reflexivity|].
  repeat apply closed_map; assumption.
Qed.

(** C7.  For every call to [plot_car], on every instance, in every store
    and whatever the outcome: every array that was in the store before
    the call is unchanged after it, no instance is created, every other
    instance is unchanged, and the shape attributes of the instance itself
    (outline, rear wheels, front wheels relative to their face centres and
    these centres) still refer to the same arrays.  Only the attributes [x],
    [y] and [yaw_vector] may differ. *)
Theorem plot_car_frame (σ : store) (self : loc) (x_road : list F) :
  let σ' := (plot_car self x_road σ).2 in
  (∀ l a, arrays σ !! l = Some a → arrays σ' !! l = Some a)
  ∧ length (instances σ') = length (instances σ)
  ∧ ∀ j o, instances σ !! j = Some o →
      ∃ o', instances σ' !! j = Some o' ∧ same_shape o o' ∧ (j ≠ self → o' = o).
Proof.
  intros σ'.
  destruct (keeps_plot_car (length (arrays σ)) self x_road σ σ (frame_refl σ self))
    as [(Htake & Hlen & Hilen & Hinst) _].
  fold σ' in Htake, Hlen, Hilen, Hinst.
  split; [|split; [done|done]].
  intros l a Hl.
  assert (l < length (arrays σ))%nat by (by eapply lookup_lt_Some).
  rewrite <- (lookup_take_lt (arrays σ') (length (arrays σ)) l) by done.
  rewrite Htake, lookup_take_lt by done. done.
Qed.
End PoseClaims.

Section RealPose.
Local Open Scope R_scope.
Local Abbreviation store := (@CarDescription.store R).

Lemma l_r_value : CarParameters.l_r = 1.48.
Proof. unfold CarParameters.l_r, CarParameters.l_, CarParameters.wheelbase. simpl. unfold Q2R. simpl. lra. Qed.

Lemma pose_at_origin :
  pose_x (lit 50) 0 0 0 = 50
  ∧ pose_y (lit 50) 0 0 0 = CarParameters.l_r
  ∧ pose_yaw (lit 50) 0 0 = PI / 2.
Proof.
  assert (H50 : Q2R 50 = 50) by (unfold Q2R; simpl; lra).
  assert (H2 : Q2R 2 = 2) by (unfold Q2R; simpl; lra).
  unfold pose_x, pose_y, pose_yaw.
  cbn [fadd fmul fdiv fcos fsin fpi lit R_ops]. rewrite H50, H2.
  replace (0 / 50) with 0 by lra.
  replace (0 + (PI / 2 + 0)) with (PI / 2) by lra.
  replace (PI + 0) with PI by lra.
  rewrite cos_0, sin_0, cos_PI2, sin_PI2, cos_PI, sin_PI.
  repeat split; lra.
Qed.

Lemma frenet_value_origin :
  frenet_value [0; 0; 0; 0; 0] = Ret (50, CarParameters.l_r, 0, PI / 2, 0).
Proof.
  unfold frenet_value. cbn [np.unpack5 mbind outcome_bind].
  destruct pose_at_origin as (-> & -> & ->). reflexivity.
Qed.

(** C8, amended.  With path radius 50 and the state
    [(s, e, mu, v, d) = (0, 0, 0, 0, 0)] the world position returned by
    [frenet_to_cartesian] is [(r, l_r) = (50, 1.48)] and the heading is
    [pi/2], where [l_r] is the distance from the rear axle to the centre of
    gravity in [CarParameters]. *)
Theorem frenet_to_cartesian_origin (self : loc) (σ : store) :
  (frenet_to_cartesian self [0; 0; 0; 0; 0] σ).1
  = Ret (50, CarParameters.l_r, 0, PI / 2, 0)
  ∧ CarParameters.l_r = 1.48.
Proof.
  split; [|apply l_r_value].
  rewrite frenet_to_cartesian_outcome. apply frenet_value_origin.
Qed.

(** C8 as stated fails: at the state [(0, 0, 0, 0, 0)] the returned
    position is [l_r = 1.48] away from [(r + l_r, 0)] in each coordinate. *)
Lemma origin_is_not_at_r_plus_l_r :
  ∃ px py v yaw d,
    (frenet_to_cartesian 0%nat [0; 0; 0; 0; 0] empty_store).1 = Ret (px, py, v, yaw, d)
    ∧ Rabs (px - (50 + CarParameters.l_r)) = 1.48
    ∧ Rabs (py - 0) = 1.48.
Proof.
  exists 50, CarParameters.l_r, 0, (PI / 2), 0.
  split; [rewrite frenet_to_cartesian_outcome; apply frenet_value_origin|].
  rewrite l_r_value. split.
  - unfold Rabs. destruct (Rcase_abs _); lra.
  - unfold Rabs. destruct (Rcase_abs _); lra.
Qed.

Lemma fresh_car_holds : holds fresh_car 0%nat car_shape.
Proof. exact (init_holds (fun _ _ => 0) empty_store). Qed.

(** C3 on a car just built, at the state [(0, 0, 0, 0, 0)]. *)
Lemma plot_car_composes_witness :
  holds fresh_car 0%nat car_shape
  ∧ ∃ outlines_w fr_w rr_w fl_w rl_w σ',
      let pos := (pose_x (lit 50) 0 0 0, pose_y (lit 50) 0 0 0) in
      let yaw := pose_yaw (lit 50) 0 0 in
      plot_car 0%nat [0; 0; 0; 0; 0] fresh_car
      = (Ret (Some pos.1, Some pos.2, outlines_w, fr_w, rr_w, fl_w, rl_w), σ')
      ∧ arrays σ' !! outlines_w
        = Some (columns_of (map (to_world pos yaw) (body car_shape)))
      ∧ arrays σ' !! rr_w
        = Some (columns_of (map (to_world pos yaw) (wheel_rr car_shape)))
      ∧ arrays σ' !! rl_w
        = Some (columns_of (map (to_world pos yaw) (wheel_rl car_shape)))
      ∧ arrays σ' !! fr_w
        = Some (columns_of (map (to_world pos yaw)
                  (map (steer_pivot 0 (centre_fr car_shape)) (wheel_fr car_shape))))
      ∧ arrays σ' !! fl_w
        = Some (columns_of (map (to_world pos yaw)
                  (map (steer_pivot 0 (centre_fl car_shape)) (wheel_fl car_shape))))
      ∧ ∃ o', instances σ' !! 0%nat = Some o'
          ∧ x o' = Some pos.1 ∧ y o' = Some pos.2
          ∧ arrays σ' !! yaw_vector o'
            = Some (Mat 2 [ [cos yaw; sin yaw]; [- sin yaw; cos yaw] ]).
Proof.
  split; [exact fresh_car_holds|].
  exact (plot_car_composes fresh_car 0%nat car_shape 0 0 0 0 0 fresh_car_holds).
Defined.

(** C9 on a car just built, at the state [(0, 0, 0, 0, 0)]. *)
Lemma plot_car_polygons_closed_witness :
  holds fresh_car 0%nat car_shape
  ∧ ∃ px py outlines_w fr_w rr_w fl_w rl_w σ' Po Pfr Prr Pfl Prl,
      plot_car 0%nat [0; 0; 0; 0; 0] fresh_car
      = (Ret (px, py, outlines_w, fr_w, rr_w, fl_w, rl_w), σ')
      ∧ arrays σ' !! outlines_w = Some (columns_of Po) ∧ closed Po
      ∧ arrays σ' !! fr_w = Some (columns_of Pfr) ∧ closed Pfr
      ∧ arrays σ' !! rr_w = Some (columns_of Prr) ∧ closed Prr
      ∧ arrays σ' !! fl_w = Some (columns_of Pfl) ∧ closed Pfl
      ∧ arrays σ' !! rl_w = Some (columns_of Prl) ∧ closed Prl.
Proof.
  split; [exact fresh_car_holds|].
  exact (plot_car_polygons_closed fresh_car 0%nat 0 0 0 0 0 fresh_car_holds).
Defined.
End RealPose.

(** * Further properties of [src/tools.py]

    ** [normalise_angle] *)

Section Angles.
Local Open Scope R_scope.

Lemma unit_circle (a : R) : cos a * cos a + sin a * sin a = 1.
Proof. pose proof (sin2_cos2 a) as Hs. unfold Rsqr in Hs. lra. Qed.

(** On the unit circle, [Ratan2 y x] is an angle in (-pi, pi] whose cosine
    is [x] and whose sine is [y]. *)
Lemma Ratan2_unit (x y : R) :
  x * x + y * y = 1 →
  - PI < Ratan2 y x <= PI ∧ cos (Ratan2 y x) = x ∧ sin (Ratan2 y x) = y.
Proof.
  intros Hxy. pose proof PI_RGT_0 as Hpi.
  assert (Hatan : x ≠ 0 → cos (atan (y / x)) = Rabs x ∧ sin (atan (y / x)) = y / x * Rabs x).
  { intros Hx.
    assert (Hs : 1 + (y / x)² = (/ Rabs x)²).
    { unfold Rsqr. rewrite <- Rabs_inv. 
      replace (Rabs (/ x) * Rabs (/ x)) with (/ x * / x).
      - replace (1 + y / x * (y / x)) with ((x * x + y * y) * (/ x * / x)) by (field; done).
        rewrite Hxy. lra.
      - rewrite <- Rabs_mult. symmetry. apply Rabs_pos_eq. nra. }
    assert (Hpos : 0 < / Rabs x) by (apply Rinv_0_lt_compat, Rabs_pos_lt; done).
    rewrite cos_atan, sin_atan, Hs, sqrt_Rsqr by lra.
    assert (Rabs x ≠ 0) by (apply Rabs_no_R0; done).
    split; field; done. }
  pose proof (atan_bound (y / x)) as [Hlo Hhi].
  unfold Ratan2.
  destruct (Rlt_dec 0 x) as [Hx|Hx].
  - destruct Hatan as [Hc Hs]; [lra|]. rewrite Rabs_pos_eq in Hc, Hs by lra.
    split; [lra|]. split; [done|]. rewrite Hs. field. lra.
  - destruct (Rlt_dec x 0) as [Hx'|Hx'].
    + destruct Hatan as [Hc Hs]; [lra|]. rewrite Rabs_left in Hc, Hs by lra.
      assert (Hinv : / x < 0) by (by apply Rinv_lt_0_compat).
      destruct (Rle_dec 0 y) as [Hy|Hy].
      * assert (y / x <= 0) by (unfold Rdiv; nra).
        assert (atan (y / x) <= 0).
        { destruct (Req_dec_T (y / x) 0) as [->|Hne]; [rewrite atan_0; lra|].
          left. rewrite <- atan_0. apply atan_increasing. lra. }
        split; [lra|]. rewrite neg_cos, neg_sin, Hc, Hs. split; [lra|]. field. lra.
      * assert (0 < y / x) by (unfold Rdiv; nra).
        assert (0 < atan (y / x)) by (rewrite <- atan_0; by apply atan_increasing).
        split; [lra|].
        replace (atan (y / x) - PI) with (- (PI - atan (y / x))) by lra.
        rewrite cos_neg, sin_neg.
        replace (PI - atan (y / x)) with (- atan (y / x) + PI) by lra.
        rewrite neg_cos, neg_sin, cos_neg, sin_neg, Hc, Hs. split; [lra|]. field. lra.
    + assert (x = 0) as -> by lra.
      assert (Hy1 : y * y = 1) by lra.
      destruct (Rlt_dec 0 y) as [Hy|Hy].
      * assert (y = 1) as -> by nra.
        split; [lra|]. by rewrite cos_PI2, sin_PI2.
      * destruct (Rlt_dec y 0) as [Hy'|Hy']; [|nra].
        assert (y = -1) as -> by nra.
        replace (- PI / 2) with (- (PI / 2)) by lra.
        split; [lra|]. rewrite cos_neg, sin_neg, cos_PI2, sin_PI2. lra.
Qed.

Lemma angle_unique_le (a b : R) :
  b <= a → a - b < 2 * PI → cos a = cos b → sin a = sin b → a = b.
Proof.
  intros Hle Hlt Hc Hs. pose proof PI_RGT_0 as Hpi.
  assert (Hsin : sin (a - b) = 0) by (rewrite sin_minus, Hc, Hs; ring).
  assert (Hcos : cos (a - b) = 1).
  { rewrite cos_minus, Hc, Hs. apply unit_circle. }
  destruct (sin_eq_O_2PI_0 (a - b)) as [H0|[H1|H2]]; try lra.
  rewrite H1, cos_PI in Hcos. lra.
Qed.

Lemma angle_unique (a b : R) :
  - PI < a <= PI → - PI < b <= PI → cos a = cos b → sin a = sin b → a = b.
Proof.
  intros Ha Hb Hc Hs. destruct (Rle_lt_dec b a).
  - apply angle_unique_le; [lra|lra|done|done].
  - symmetry. apply angle_unique_le; [lra|lra|done|done].
Qed.

Lemma normalise_angle_R (a : R) : normalise_angle a = Ratan2 (sin a) (cos a).
Proof. reflexivity. Qed.

(** X1.  [normalise_angle] returns the principal value of its argument: the
    result lies in (-pi, pi] and has the cosine and the sine of the
    argument. *)
Theorem normalise_angle_principal (a : R) :
  - PI < normalise_angle a <= PI
  ∧ cos (normalise_angle a) = cos a
  ∧ sin (normalise_angle a) = sin a.
Proof. rewrite normalise_angle_R. apply Ratan2_unit, unit_circle. Qed.

(** X2.  [normalise_angle] leaves an angle of (-pi, pi] as it is. *)
Theorem normalise_angle_fixes_principal (a : R) :
  - PI < a <= PI → normalise_angle a = a.
Proof.
  intros Ha. rewrite normalise_angle_R.
  destruct (Ratan2_unit (cos a) (sin a) (unit_circle a)) as (Hr & Hc & Hs).
  by apply angle_unique.
Qed.

Lemma normalise_angle_fixes_principal_witness :
  - PI < PI / 2 <= PI ∧ normalise_angle (PI / 2) = PI / 2.
Proof.
  assert (Hr : - PI < PI / 2 <= PI) by (pose proof PI_RGT_0; lra).
  split; [exact Hr|]. exact (normalise_angle_fixes_principal (PI / 2) Hr).
Defined.

(** X3.  [normalise_angle] does not see whole turns, and normalising twice
    is normalising once. *)
Theorem normalise_angle_periodic_idempotent (a : R) (k : nat) :
  normalise_angle (a + 2 * INR k * PI) = normalise_angle a
  ∧ normalise_angle (normalise_angle a) = normalise_angle a.
Proof.
  split.
  - by rewrite !normalise_angle_R, cos_period, sin_period.
  - rewrite !normalise_angle_R.
    destruct (Ratan2_unit (cos a) (sin a) (unit_circle a)) as (_ & -> & ->). done.
Qed.
End Angles.

(** ** [get_rotation_matrix] *)

Section Rotations.
Local Open Scope R_scope.

Lemma rotate_R (angle : R) (p : R * R) :
  rotate angle p
  = (p.1 * cos angle + p.2 * - sin angle, p.1 * sin angle + p.2 * cos angle).
Proof. reflexivity. Qed.

Lemma rotate_rotate (a b : R) (p : R * R) : rotate b (rotate a p) = rotate (a + b) p.
Proof.
  rewrite !rotate_R. cbn [fst snd]. rewrite cos_plus, sin_plus. f_equal; ring.
Qed.

Lemma rotate_0 (p : R * R) : rotate 0 p = p.
Proof. rewrite rotate_R, cos_0, sin_0. destruct p as [px py]. cbn [fst snd]. f_equal; ring. Qed.

Lemma rotate_back (angle : R) (p : R * R) : rotate (- angle) (rotate angle p) = p.
Proof. rewrite rotate_rotate. replace (angle + - angle) with 0 by ring. apply rotate_0. Qed.

Lemma map_id_eq {A} (f : A → A) (l : list A) : (∀ x, f x = x) → map f l = l.
Proof. intros Hf. induction l as [|a l IH]; simpl; [done|]. by rewrite Hf, IH. Qed.

(** X4.  The product of the matrices of two angles, as [np.dot] computes
    it, is the matrix of the sum of the angles. *)
Theorem rotation_matrices_compose (a b : R) :
  np.dot (get_rotation_matrix a) (get_rotation_matrix b)
  = Ret (get_rotation_matrix (a + b)).
Proof.
  unfold np.dot, get_rotation_matrix. cbn -[cos sin].
  rewrite cos_plus, sin_plus. do 2 f_equal.
  repeat (f_equal; try ring).
Qed.

(** X5.  Rotating the points of a polygon (one per row) by the matrix of an
    angle and then by the matrix of the opposite angle gives the polygon
    back. *)
Theorem rotation_round_trip (pts : polygon) (angle : R) :
  ∃ m, np.dot (Mat 2 (rows_of pts)) (get_rotation_matrix angle) = Ret m
       ∧ np.dot m (get_rotation_matrix (- angle)) = Ret (Mat 2 (rows_of pts)).
Proof.
  eexists. split; [apply dot_rotation|].
  rewrite dot_rotation, map_map. do 3 f_equal.
  apply map_id_eq, rotate_back.
Qed.
End Rotations.

(** * Further properties of [src/description.py]

    ** [frenet_to_cartesian] on its circle *)

Section RealPoseGeometry.
Local Open Scope R_scope.
Local Abbreviation store := (@CarDescription.store R).

Lemma Q2R_50 : Q2R 50 = 50.
Proof. unfold Q2R. simpl. lra. Qed.

Lemma Q2R_2 : Q2R 2 = 2.
Proof. unfold Q2R. simpl. lra. Qed.

Lemma pose_R (s e mu : R) :
  pose_yaw (lit 50) s mu = mu + (PI / 2 + s / 50)
  ∧ pose_x (lit 50) s e mu
    = 50 * cos (s / 50) + e * cos (PI + s / 50)
      + CarParameters.l_r * cos (mu + (PI / 2 + s / 50))
  ∧ pose_y (lit 50) s e mu
    = 50 * sin (s / 50) + e * sin (PI + s / 50)
      + CarParameters.l_r * sin (mu + (PI / 2 + s / 50)).
Proof.
  unfold pose_x, pose_y, pose_yaw.
  cbn [fadd fmul fdiv fcos fsin fpi lit R_ops]. by rewrite Q2R_50, Q2R_2.
Qed.

Lemma frenet_to_cartesian_R (self : loc) (s e mu v d : R) (σ : store) :
  (frenet_to_cartesian self [s; e; mu; v; d] σ).1
  = Ret (pose_x (lit 50) s e mu, pose_y (lit 50) s e mu, v, pose_yaw (lit 50) s mu, d).
Proof. by rewrite frenet_to_cartesian_outcome. Qed.

(** X9.  The track of [frenet_to_cartesian] is a closed loop of length
    [2 pi 50]: advancing [s] by whole laps returns the same position, and
    the heading grows by one turn per lap. *)
Theorem frenet_to_cartesian_lap (self : loc) (s e mu v d : R) (σ : store) (laps : nat) :
  ∃ px py yaw,
    (frenet_to_cartesian self [s; e; mu; v; d] σ).1 = Ret (px, py, v, yaw, d)
    ∧ (frenet_to_cartesian self [s + INR laps * (2 * PI * 50); e; mu; v; d] σ).1
      = Ret (px, py, v, yaw + 2 * INR laps * PI, d).
Proof.
  do 3 eexists. split; [apply frenet_to_cartesian_R|].
  rewrite frenet_to_cartesian_R.
  destruct (pose_R s e mu) as (-> & -> & ->).
  destruct (pose_R (s + INR laps * (2 * PI * 50)) e mu) as (-> & -> & ->).
  replace ((s + INR laps * (2 * PI * 50)) / 50) with (s / 50 + 2 * INR laps * PI) by field.
  replace (PI + (s / 50 + 2 * INR laps * PI)) with (PI + s / 50 + 2 * INR laps * PI) by ring.
  replace (mu + (PI / 2 + (s / 50 + 2 * INR laps * PI)))
    with (mu + (PI / 2 + s / 50) + 2 * INR laps * PI) by ring.
  by rewrite !cos_period, !sin_period.
Qed.

(** X10.  The point returned by [frenet_to_cartesian] is [l_r] ahead, along
    the heading, of the point at polar angle [s / 50] and distance [50 - e]
    from the origin, and the heading is [mu] past the tangent of the circle
    there (the direction [(- sin (s / 50), cos (s / 50))]). *)
Theorem frenet_to_cartesian_geometry (self : loc) (s e mu v d : R) (σ : store) :
  ∃ px py yaw,
    (frenet_to_cartesian self [s; e; mu; v; d] σ).1 = Ret (px, py, v, yaw, d)
    ∧ px - CarParameters.l_r * cos yaw = (50 - e) * cos (s / 50)
    ∧ py - CarParameters.l_r * sin yaw = (50 - e) * sin (s / 50)
    ∧ cos (yaw - mu) = - sin (s / 50)
    ∧ sin (yaw - mu) = cos (s / 50).
Proof.
  do 3 eexists. split; [apply frenet_to_cartesian_R|].
  destruct (pose_R s e mu) as (-> & -> & ->).
  replace (PI + s / 50) with (s / 50 + PI) by ring.
  rewrite neg_cos, neg_sin.
  replace (mu + (PI / 2 + s / 50) - mu) with (PI / 2 + s / 50) by ring.
  split; [ring|]. split; [ring|].
  rewrite cos_plus, sin_plus, cos_PI2, sin_PI2. split; ring.
Qed.
End RealPoseGeometry.

(** ** [__init__], [transform] and [plot_car] on the store *)

Section PlotCarFacts.
Context `{FloatOps F}.
Local Open Scope flt_scope.
Local Abbreviation store := (@CarDescription.store F).
Local Abbreviation attrs := (@CarDescription.attrs F).
Local Abbreviation M := (@CarDescription.M F).

Lemma plot_car_view_run (σ : store) (self : loc) (sh : shape) (s e mu v d : F) :
  holds σ self sh →
  let r := lit 50 in
  let pos := (pose_x r s e mu, pose_y r s e mu) in
  let yaw := pose_yaw r s mu in
  plot_car_view (plot_car self [s; e; mu; v; d] σ)
  = Some (Some pos.1, Some pos.2,
          [ Some (columns_of (map (to_world pos yaw) (body sh)));
            Some (columns_of (map (to_world pos yaw)
                                (map (steer_pivot d (centre_fr sh)) (wheel_fr sh))));
            Some (columns_of (map (to_world pos yaw) (wheel_rr sh)));
            Some (columns_of (map (to_world pos yaw)
                                (map (steer_pivot d (centre_fl sh)) (wheel_fl sh))));
            Some (columns_of (map (to_world pos yaw) (wheel_rl sh))) ]).
Proof.
  intros (o & Hself & Hb & Hrr & Hrl & Hfr & Hcfr & Hfl & Hcfl) r pos yaw.
  destruct σ as [h insts]. cbn [arrays instances] in *.
  unfold plot_car_view. rewrite (plot_car_run self o sh) by done.
  cbn [fst snd arrays map]. rewrite !lookup_app_new. reflexivity.
Qed.

(** X11.  What [plot_car] returns (position and contents of the five arrays)
    depends on the stored shape and on its argument only: an earlier call of
    [plot_car], with whatever state, leaves no trace in it. *)
Theorem plot_car_forgets_earlier_calls (σ : store) (self : loc) (sh : shape)
    (s1 e1 mu1 v1 d1 s e mu v d : F) :
  holds σ self sh →
  plot_car_view (plot_car self [s; e; mu; v; d]
                   (plot_car self [s1; e1; mu1; v1; d1] σ).2)
  = plot_car_view (plot_car self [s; e; mu; v; d] σ)
  ∧ is_Some (plot_car_view (plot_car self [s; e; mu; v; d] σ)).
Proof.
  intros Hh.
  rewrite (plot_car_view_run σ self sh) by done.
  rewrite (plot_car_view_run _ self sh) by (by apply plot_car_holds).
  done.
Qed.

(** X12.  With a state vector that does not have five entries [plot_car]
    raises a [ValueError] (the unpacking in [frenet_to_cartesian]) and
    changes nothing, the position of the instance included. *)
Theorem plot_car_wrong_length (σ : store) (self : loc) (x_road : list F) :
  length x_road ≠ 5%nat →
  ∃ msg, plot_car self x_road σ = (Raise (ValueError msg), σ).
Proof.
  intros Hlen.
  destruct x_road as [|s [|e [|mu [|v [|d [|extra rest]]]]]];
    try (eexists; reflexivity).
  done.
Qed.

Lemma run_bind_raise {A B} (c : M A) (f : A → M B) (σ σ1 : store) (e : exn) :
  c σ = (Raise e, σ1) → (c ≫= f) σ = (Raise e, σ1).
Proof. intros Hc. unfold mbind, M_bind. by rewrite Hc. Qed.

Lemma run_update_raise (k : nat) (f : ndarray F → outcome (ndarray F)) (a : ndarray F)
    (e : exn) (h news : list (ndarray F)) insts :
  news !! k = Some a → f a = Raise e →
  update (length h + k)%nat f {| arrays := h ++ news; instances := insts |}
  = (Raise e, {| arrays := h ++ news; instances := insts |}).
Proof.
  intros Hl Hf. unfold update. cbn [arrays]. by rewrite lookup_app_new, Hl, Hf.
Qed.

Lemma transform_without_pose_run (self point : loc) (o : attrs)
    (c c' : nat) (rows rows' : list (list F)) (h : list (ndarray F)) (insts : list attrs) :
  insts !! self = Some o → x o = None →
  h !! point = Some (Mat c rows) →
  h !! yaw_vector o = Some (Mat c' rows') →
  c = length rows' →
  ∃ msg a, transform self point {| arrays := h; instances := insts |}
           = (Raise (TypeError msg), {| arrays := h ++ [a]; instances := insts |}).
Proof.
  intros Hself Hx Hpoint Hyaw Hc.
  assert (Hlt : (self < length insts)%nat) by (by eapply lookup_lt_Some).
  assert (Hdot : ∃ m, np.dot (Mat c rows) (Mat c' rows') = Ret m).
  { unfold np.dot. rewrite Hc, Nat.eqb_refl. eauto. }
  destruct Hdot as [m Hdot].
  do 2 eexists.
  rewrite <- (list_insert_id insts self o Hself).
  rewrite <- (app_nil_r h) at 1.
  unfold transform.
  eapply run_bind; [run|]. eapply run_bind; [run|].
  eapply run_bind; [apply run_lift; exact Hdot|].
  eapply run_bind; [run|]. eapply run_bind; [run|]. rewrite Hx.
  apply run_bind_raise.
  eapply run_update_raise; reflexivity.
Qed.

(** X15.  [transform] on an instance whose position is still [None] (as
    [__init__] leaves it) raises a [TypeError] at the first translation; the
    instances and the arrays that existed before are unchanged. *)
Theorem transform_without_pose (σ : store) (self point : loc) (o : attrs)
    (c c' : nat) (rows rows' : list (list F)) :
  instances σ !! self = Some o → x o = None →
  arrays σ !! point = Some (Mat c rows) →
  arrays σ !! yaw_vector o = Some (Mat c' rows') →
  c = length rows' →
  ∃ msg, (transform self point σ).1 = Raise (TypeError msg)
    ∧ instances (transform self point σ).2 = instances σ
    ∧ ∀ l a, arrays σ !! l = Some a → arrays (transform self point σ).2 !! l = Some a.
Proof.
  intros Hself Hx Hpoint Hyaw Hc. destruct σ as [h insts]. cbn [arrays instances] in *.
  destruct (transform_without_pose_run self point o c c' rows rows' h insts)
    as (msg & a & ->); try done.
  exists msg. split; [done|]. split; [done|].
  intros l b Hl. by apply lookup_app_l_Some.
Qed.

(** X16.  [__init__] always succeeds: it adds one instance, with no
    position, whose eight array attributes are pairwise different arrays
    created by the call; the arrays that existed are unchanged, the instance
    holds the shape of the car and [yaw_vector] is the uninitialised 2 x 2
    array. *)
Theorem init_allocates_fresh (u : nat → nat → F) (σ : store) :
  ∃ o σ', __init__ u σ = (Ret (length (instances σ)), σ')
    ∧ instances σ' = instances σ ++ [o]
    ∧ x o = None ∧ y o = None
    ∧ (∀ l a, arrays σ !! l = Some a → arrays σ' !! l = Some a)
    ∧ holds σ' (length (instances σ)) car_shape
    ∧ arrays σ' !! yaw_vector o = Some (empty22 u)
    ∧ NoDup (array_attributes o)
    ∧ Forall (fun l => (length (arrays σ) ≤ l)%nat) (array_attributes o).
Proof.
  pose proof (init_holds u σ) as Hh.
  destruct σ as [h insts]. rewrite init_run in Hh. cbn [snd] in Hh.
  do 2 eexists. split; [apply init_run|]. cbn [arrays instances].
  split; [reflexivity|]. split; [reflexivity|]. split; [reflexivity|].
  split; [intros l a Hl; by apply lookup_app_l_Some|].
  split; [exact Hh|].
  split; [apply lookup_app_new_Some; reflexivity|].
  unfold array_attributes, init_attrs. cbn [outlines rear_right_wheel rear_left_wheel
    fr_wheel_center fl_wheel_center fr_wheel_origin fl_wheel_origin yaw_vector].
  split.
  - repeat (apply NoDup_cons; split; [rewrite ?elem_of_cons, elem_of_nil; lia|]).
    apply NoDup_nil_2.
  - repeat (apply Forall_cons; split; [lia|]). apply Forall_nil_2.
Qed.
End PlotCarFacts.

(** ** [plot_car] over the reals *)

Section RealPlotCar.
Local Open Scope R_scope.
Local Abbreviation store := (@CarDescription.store R).

Lemma dist2_rotate (angle : R) (p q : R * R) :
  dist2 (rotate angle p) (rotate angle q) = dist2 p q.
Proof.
  rewrite !rotate_R. unfold dist2. cbn [fst snd].
  pose proof (unit_circle angle) as Hu.
  transitivity (((p.1 - q.1) * (p.1 - q.1) + (p.2 - q.2) * (p.2 - q.2))
                * (cos angle * cos angle + sin angle * sin angle)); [ring|].
  rewrite Hu. ring.
Qed.

Lemma dist2_translate (t p q : R * R) : dist2 (translate t p) (translate t q) = dist2 p q.
Proof. unfold dist2, translate. cbn [fst snd fadd R_ops]. ring. Qed.

Lemma dist2_to_world (pos : R * R) (yaw : R) (p q : R * R) :
  dist2 (to_world pos yaw p) (to_world pos yaw q) = dist2 p q.
Proof. unfold to_world. by rewrite dist2_translate, dist2_rotate. Qed.

Lemma dist2_steer_pivot (steer : R) (c p q : R * R) :
  dist2 (steer_pivot steer c p) (steer_pivot steer c q) = dist2 p q.
Proof. unfold steer_pivot. by rewrite dist2_translate, dist2_rotate. Qed.

Lemma congruent_map (f : R * R → R * R) (P : list (R * R)) :
  (∀ p q, dist2 (f p) (f q) = dist2 p q) → congruent P (map f P).
Proof.
  intros Hf. split; [by rewrite length_map|].
  intros i j p q p' q' Hp Hq Hp' Hq'.
  change (map f P) with (f <$> P) in Hp', Hq'.
  rewrite list_lookup_fmap, Hp in Hp'. rewrite list_lookup_fmap, Hq in Hq'.
  injection Hp' as <-. injection Hq' as <-. apply Hf.
Qed.

(** X13.  [plot_car] moves every polygon rigidly: each returned polygon has
    the vertices of the stored one, in the same order and at the same mutual
    distances, for every state, the steering angle included. *)
Theorem plot_car_is_rigid (σ : store) (self : loc) (sh : shape) (s e mu v d : R) :
  holds σ self sh →
  ∃ px py Wb Wfr Wrr Wfl Wrl,
    plot_car_view (plot_car self [s; e; mu; v; d] σ)
    = Some (px, py, [ Some (columns_of Wb); Some (columns_of Wfr); Some (columns_of Wrr);
                      Some (columns_of Wfl); Some (columns_of Wrl) ])
    ∧ congruent (body sh) Wb
    ∧ congruent (wheel_fr sh) Wfr
    ∧ congruent (wheel_rr sh) Wrr
    ∧ congruent (wheel_fl sh) Wfl
    ∧ congruent (wheel_rl sh) Wrl.
Proof.
  intros Hh. do 7 eexists. split; [by apply plot_car_view_run|].
  repeat split; try (rewrite map_map); apply congruent_map; intros p q;
    rewrite ?dist2_to_world, ?dist2_steer_pivot; done.
Qed.

Lemma steer_pivot_0_relative (c p : R * R) : steer_pivot 0 c (relative_to c p) = p.
Proof.
  unfold steer_pivot. rewrite rotate_0. unfold translate, relative_to.
  destruct p as [p1 p2]. cbn [fst snd fadd fsub R_ops]. f_equal; ring.
Qed.

(** X14.  With a steering angle of 0 the front wheels are drawn as the
    wheel polygons built by [__init__], rotated by the heading and moved to
    the position, exactly as the rear wheels are. *)
Theorem plot_car_straight_wheels (σ : store) (self : loc) (s e mu v : R) :
  holds σ self car_shape →
  let pos := (pose_x (lit 50) s e mu, pose_y (lit 50) s e mu) in
  let yaw := pose_yaw (lit 50) s mu in
  ∃ px py Wb Wrr Wrl,
    plot_car_view (plot_car self [s; e; mu; v; 0] σ)
    = Some (px, py, [ Wb; Some (columns_of (map (to_world pos yaw) front_right)); Wrr;
                      Some (columns_of (map (to_world pos yaw) front_left)); Wrl ]).
Proof.
  intros Hh pos yaw. do 5 eexists.
  rewrite (plot_car_view_run σ self car_shape) by done.
  cbn [wheel_fr wheel_fl centre_fr centre_fl car_shape].
  rewrite !(map_map (relative_to _)).
  rewrite !(map_id_eq (fun x => steer_pivot 0 _ (relative_to _ x))) by apply steer_pivot_0_relative.
  reflexivity.
Qed.

Lemma fresh_car_eq :
  fresh_car = {| arrays := init_arrays (fun _ _ => 0); instances := [init_attrs 0] |}.
Proof. unfold fresh_car, empty_store. by rewrite init_run. Qed.

Lemma plot_car_is_rigid_witness :
  holds fresh_car 0%nat car_shape
  ∧ ∃ px py Wb Wfr Wrr Wfl Wrl,
      plot_car_view (plot_car 0%nat [0; 0; 0; 0; 0] fresh_car)
      = Some (px, py, [ Some (columns_of Wb); Some (columns_of Wfr); Some (columns_of Wrr);
                        Some (columns_of Wfl); Some (columns_of Wrl) ])
      ∧ congruent (body car_shape) Wb
      ∧ congruent (wheel_fr car_shape) Wfr
      ∧ congruent (wheel_rr car_shape) Wrr
      ∧ congruent (wheel_fl car_shape) Wfl
      ∧ congruent (wheel_rl car_shape) Wrl.
Proof.
  split; [exact fresh_car_holds|].
  exact (plot_car_is_rigid fresh_car 0%nat car_shape 0 0 0 0 0 fresh_car_holds).
Defined.

Lemma plot_car_straight_wheels_witness :
  holds fresh_car 0%nat car_shape
  ∧ ∃ px py Wb Wrr Wrl,
      plot_car_view (plot_car 0%nat [0; 0; 0; 0; 0] fresh_car)
      = Some (px, py,
              [ Wb;
                Some (columns_of (map (to_world (pose_x (lit 50) 0 0 0, pose_y (lit 50) 0 0 0)
                                         (pose_yaw (lit 50) 0 0)) front_right));
                Wrr;
                Some (columns_of (map (to_world (pose_x (lit 50) 0 0 0, pose_y (lit 50) 0 0 0)
                                         (pose_yaw (lit 50) 0 0)) front_left));
                Wrl ]).
Proof.
  split; [exact fresh_car_holds|].
  exact (plot_car_straight_wheels fresh_car 0%nat 0 0 0 0 fresh_car_holds).
Defined.

Lemma plot_car_forgets_earlier_calls_witness :
  holds fresh_car 0%nat car_shape
  ∧ plot_car_view (plot_car 0%nat [1; 0; 0; 0; 0]
                     (plot_car 0%nat [0; 0; 0; 0; 0] fresh_car).2)
    = plot_car_view (plot_car 0%nat [1; 0; 0; 0; 0] fresh_car)
  ∧ is_Some (plot_car_view (plot_car 0%nat [1; 0; 0; 0; 0] fresh_car)).
Proof.
  split; [exact fresh_car_holds|].
  exact (plot_car_forgets_earlier_calls fresh_car 0%nat car_shape
           0 0 0 0 0 1 0 0 0 0 fresh_car_holds).
Defined.

Lemma plot_car_wrong_length_witness :
  length [1; 2; 3] ≠ 5%nat
  ∧ ∃ msg, plot_car 0%nat [1; 2; 3] fresh_car = (Raise (ValueError msg), fresh_car).
Proof.
  assert (Hlen : length [1; 2; 3] ≠ 5%nat) by (simpl; lia).
  split; [exact Hlen|].
  exact (plot_car_wrong_length fresh_car 0%nat [1; 2; 3] Hlen).
Defined.

Lemma transform_without_pose_witness :
  ∃ msg, (transform 0%nat 2%nat fresh_car).1 = Raise (TypeError msg)
    ∧ instances (transform 0%nat 2%nat fresh_car).2 = instances fresh_car
    ∧ ∀ l a, arrays fresh_car !! l = Some a →
        arrays (transform 0%nat 2%nat fresh_car).2 !! l = Some a.
Proof.
  rewrite fresh_car_eq.
  eapply (transform_without_pose _ 0%nat 2%nat (init_attrs 0)); reflexivity.
Defined.
End RealPlotCar.

(** * Further properties of the spline construction of [src/tools.py] *)

Section SplineFacts.
Context `{FloatOps F} `{Interpolant F}.
Local Open Scope flt_scope.

Lemma length_cumsum (l : list F) : length (np.cumsum l) = length l.
Proof.
  destruct l as [|a l]; [done|]. simpl. f_equal.
  revert a. induction l as [|b l IH]; intros a; simpl; [done|]. by rewrite IH.
Qed.

Lemma length_ediff1d (x : list F) : length (np.ediff1d x) = Nat.pred (length x).
Proof.
  unfold np.ediff1d. rewrite length_zip_with.
  destruct x; cbn [tail length Nat.pred]; lia.
Qed.

Lemma length_chord_distance_gen (x y : list F) :
  length (chord_distance x y)
  = S (Nat.min (Nat.pred (length x)) (Nat.pred (length y))).
Proof.
  unfold chord_distance, np.hypot. simpl.
  by rewrite length_cumsum, length_zip_with, !length_ediff1d.
Qed.

Lemma CubicSpline_Ret_knots (x : list F) (y : ndarray F) (bc : string) (cs : scipy.PPoly F) :
  scipy.CubicSpline x y bc = Ret cs → (2 ≤ length x)%nat.
Proof.
  unfold scipy.CubicSpline.
  destruct (Nat.ltb_spec (length x) 2); [discriminate|done].
Qed.

Lemma initialise_cubic_spline_Ret_points x y ds bc cs s :
  initialise_cubic_spline x y ds bc = Ret (cs, s) →
  length y = length x ∧ (2 ≤ length x)%nat.
Proof.
  intros Hinit.
  destruct (initialise_cubic_spline_Ret x y ds bc cs s Hinit) as (Hlen & _ & _).
  split; [done|].
  unfold initialise_cubic_spline in Hinit.
  apply bind_Ret_inv in Hinit as (a & _ & Hrest).
  apply bind_Ret_inv in Hrest as (total & _ & Hrest).
  apply bind_Ret_inv in Hrest as (s' & _ & Hrest).
  apply bind_Ret_inv in Hrest as (cs' & Hcs & _).
  destruct (scipy.CubicSpline _ _ _) as [c|[]] eqn:E; simpl in Hcs; try discriminate.
  apply CubicSpline_Ret_knots in E.
  rewrite length_chord_distance_gen in E. lia.
Qed.

Lemma generate_cubic_spline_Ret_shape (x y : list F) ds bc cx cy yaw k :
  generate_cubic_spline x y ds bc = Ret (cx, cy, yaw, k) →
  length y = length x ∧ (2 ≤ length x)%nat
  ∧ length cy = length cx ∧ length yaw = length cx ∧ length k = length cx.
Proof.
  intros Hgen.
  destruct (initialise_cubic_spline x y ds bc) as [[cs s]|e] eqn:Hinit.
  - destruct (initialise_cubic_spline_Ret_points x y ds bc cs s Hinit) as [Hlen H2].
    rewrite (generate_cubic_spline_eq x y ds bc cs s Hinit) in Hgen.
    injection Hgen as <- <- <- <-. by rewrite !length_map.
  - unfold generate_cubic_spline in Hgen. rewrite Hinit in Hgen. discriminate.
Qed.

(** X6.  When [generate_cubic_spline] returns, the coordinate lists had the
    same length, at least 2, [initialise_cubic_spline] returned as well, and
    each of the four arrays has one entry per sample of the parameter. *)
Theorem generate_cubic_spline_lengths (x y : list F) ds bc cx cy yaw k :
  generate_cubic_spline x y ds bc = Ret (cx, cy, yaw, k) →
  length y = length x ∧ (2 ≤ length x)%nat
  ∧ ∃ cs s, initialise_cubic_spline x y ds bc = Ret (cs, s)
      ∧ length cx = length s ∧ length cy = length s
      ∧ length yaw = length s ∧ length k = length s.
Proof.
  intros Hgen.
  destruct (initialise_cubic_spline x y ds bc) as [[cs s]|e] eqn:Hinit.
  - destruct (initialise_cubic_spline_Ret_points x y ds bc cs s Hinit) as [Hlen H2].
    rewrite (generate_cubic_spline_eq x y ds bc cs s Hinit) in Hgen.
    injection Hgen as <- <- <- <-.
    split; [done|]. split; [done|]. exists cs, s. by rewrite !length_map.
  - unfold generate_cubic_spline in Hgen. rewrite Hinit in Hgen. discriminate.
Qed.

(** X7.  With coordinate lists of different lengths both
    [initialise_cubic_spline] and [generate_cubic_spline] raise. *)
Theorem mismatched_coordinates_raise (x y : list F) ds bc :
  length x ≠ length y →
  is_Raise (initialise_cubic_spline x y ds bc)
  ∧ is_Raise (generate_cubic_spline x y ds bc).
Proof.
  intros Hne.
  assert (Hi : is_Raise (initialise_cubic_spline x y ds bc)).
  { unfold initialise_cubic_spline, np.array2. cbn [forallb].
    destruct (Nat.eqb_spec (length y) (length x)) as [Heq|_]; [by rewrite Heq in Hne|].
    exact I. }
  split; [exact Hi|].
  unfold generate_cubic_spline.
  destruct (initialise_cubic_spline x y ds bc); [done|exact I].
Qed.
End SplineFacts.

Section RealSplineFacts.
Context `{Interpolant R}.
Local Open Scope R_scope.

(** X8.  For waypoints and a step other than 0, whatever error
    [initialise_cubic_spline] raises is a [ValueError] whose message ends
    with the hint about consecutive duplicates, and [generate_cubic_spline]
    raises the same error. *)
Theorem construction_errors_carry_the_hint (wps : list (R * R)) (ds : R) (bc : string) (e : exn) :
  ds ≠ 0 →
  initialise_cubic_spline (xs wps) (ys wps) ds bc = Raise e →
  ∃ msg, e = ValueError (msg +:+ duplicate_hint)
         ∧ generate_cubic_spline (xs wps) (ys wps) ds bc = Raise e.
Proof.
  intros Hds Hinit.
  assert (Hgen := generate_Raise _ _ _ _ _ Hinit).
  rewrite initialise_cubic_spline_R, CubicSpline_on_waypoints in Hinit by done.
  destruct (length wps <? 2)%nat; [injection Hinit as <-; eauto|].
  destruct (existsb _ _); [injection Hinit as <-; eauto|].
  destruct (scipy.known_bc bc); [discriminate|].
  unfold scipy.validate_bc in Hinit.
  destruct (String.eqb bc "periodic").
  - destruct (head _); [|discriminate]. destruct (last _); [|discriminate].
    destruct (scipy.rows_close _ _); [discriminate|].
    injection Hinit as <-. eauto.
  - destruct (scipy.known_bc bc); [discriminate|].
    injection Hinit as <-. eauto.
Qed.
End RealSplineFacts.

Section RealSplineWitnesses.
Local Open Scope R_scope.

Lemma generate_cubic_spline_lengths_witness :
  ∃ cx cy yaw k,
    generate_cubic_spline (xs two_waypoints) (ys two_waypoints) 2 "natural"
    = Ret (cx, cy, yaw, k)
    ∧ length (ys two_waypoints) = length (xs two_waypoints)
    ∧ (2 ≤ length (xs two_waypoints))%nat
    ∧ ∃ cs s,
        initialise_cubic_spline (xs two_waypoints) (ys two_waypoints) 2 "natural"
        = Ret (cs, s)
        ∧ length cx = length s ∧ length cy = length s
        ∧ length yaw = length s ∧ length k = length s.
Proof.
  destruct generate_two_waypoints as (cx & cy & yaw & k & Hgen & _).
  exists cx, cy, yaw, k. split; [exact Hgen|].
  exact (generate_cubic_spline_lengths _ _ _ _ _ _ _ _ Hgen).
Defined.

Lemma mismatched_coordinates_raise_witness :
  length [0; 1] ≠ length [0]
  ∧ is_Raise (initialise_cubic_spline [0; 1] [0] 1 "natural")
  ∧ is_Raise (generate_cubic_spline [0; 1] [0] 1 "natural").
Proof.
  assert (Hne : length [0; 1] ≠ length [0]) by (simpl; lia).
  split; [exact Hne|].
  exact (mismatched_coordinates_raise [0; 1] [0] 1 "natural" Hne).
Defined.

Lemma unknown_bc_two_waypoints :
  initialise_cubic_spline (xs two_waypoints) (ys two_waypoints) 1 "quadratic"
  = Raise (ValueError ("bc_type is not allowed." +:+ duplicate_hint)).
Proof.
  rewrite initialise_cubic_spline_R, CubicSpline_on_waypoints by lra.
  rewrite chords_non_degenerate by apply two_waypoints_non_degenerate.
  reflexivity.
Qed.

Lemma construction_errors_carry_the_hint_witness :
  1 ≠ 0
  ∧ ∃ e msg,
      initialise_cubic_spline (xs two_waypoints) (ys two_waypoints) 1 "quadratic" = Raise e
      ∧ e = ValueError (msg +:+ duplicate_hint)
      ∧ generate_cubic_spline (xs two_waypoints) (ys two_waypoints) 1 "quadratic" = Raise e.
Proof.
  assert (Hds : 1 ≠ 0) by lra.
  split; [exact Hds|].
  eexists.
  destruct (construction_errors_carry_the_hint two_waypoints 1 "quadratic" _ Hds
              unknown_bc_two_waypoints) as (msg & He & Hg).
  exists msg. split; [exact unknown_bc_two_waypoints|]. split; [exact He|exact Hg].
Defined.
End RealSplineWitnesses.

(** * Properties of [src/path.py]

    ** [np.linspace] and the track generators *)

Section LinspaceFacts.
Context `{FloatOps F}.
Local Open Scope flt_scope.

Lemma linspace_length (start stop : F) (num : Z) (l : list F) :
  np.linspace start stop num = Ret l → length l = Z.to_nat num.
Proof.
  unfold np.linspace. destruct (num <? 0)%Z; [discriminate|].
  intros [= <-].
  destruct (Nat.ltb 1 (Z.to_nat num));
    destruct (Nat.ltb 0 (Nat.pred (Z.to_nat num)));
    try destruct (feqb _ _);
    rewrite ?length_insert, !length_map, length_seq; done.
Qed.

Lemma linspace_negative (start stop : F) (num : Z) :
  (num < 0)%Z → is_Raise (np.linspace start stop num).
Proof.
  intros Hn. unfold np.linspace.
  by replace (num <? 0)%Z with true by (symmetry; by apply Z.ltb_lt).
Qed.

Lemma linspace_Ret (start stop : F) (num : Z) :
  (0 ≤ num)%Z → ∃ l, np.linspace start stop num = Ret l.
Proof.
  intros Hn. unfold np.linspace.
  replace (num <? 0)%Z with false by (symmetry; by apply Z.ltb_ge). eauto.
Qed.

Lemma zip_map {A} (f g : A → F) (l : list A) :
  zip (map f l) (map g l) = map (fun a => (f a, g a)) l.
Proof. induction l as [|a l IH]; simpl; [done|]. by rewrite IH. Qed.

Lemma generate_ellipse_track_Ret (a b : F) (num : Z) (pts : list (F * F)) :
  generate_ellipse_track a b num = Ret pts →
  ∃ angles, np.linspace (lit 0) (lit 2 * fpi) num = Ret angles
            ∧ pts = map (fun t => (a * fcos t, b * fsin t)) angles.
Proof.
  unfold generate_ellipse_track.
  intros (angles & Ha & [= <-])%bind_Ret_inv.
  exists angles. split; [done|]. apply zip_map.
Qed.

Lemma generate_circular_track_ellipse (r : F) (num : Z) :
  generate_circular_track r num = generate_ellipse_track r r num.
Proof. reflexivity. Qed.
End LinspaceFacts.

Section RealTracks.
Local Open Scope R_scope.

(** Over the reals the samples of [np.linspace] are equally spaced, the
    last one included. *)
Lemma linspace_R (start stop : R) (n : nat) :
  (2 ≤ n)%nat →
  np.linspace start stop (Z.of_nat n)
  = Ret (map (fun i => INR i * ((stop - start) / INR (Nat.pred n)) + start) (seq 0 n)).
Proof.
  intros Hn. unfold np.linspace.
  replace (Z.of_nat n <? 0)%Z with false by (symmetry; apply Z.ltb_ge; lia).
  rewrite Nat2Z.id.
  replace (Nat.ltb 0 (Nat.pred n)) with true by (symmetry; apply Nat.ltb_lt; lia).
  replace (Nat.ltb 1 n) with true by (symmetry; apply Nat.ltb_lt; lia).
  assert (Hd : INR (Nat.pred n) ≠ 0) by (apply not_0_INR; lia).
  cbn [feqb fdiv fsub fmul fadd lit R_ops]. rewrite Q2R_0, !of_nat_R.
  set (step := (stop - start) / INR (Nat.pred n)).
  assert (Hy : (if Reqb step 0
                then map (fun v => v / INR (Nat.pred n) * (stop - start)) (map of_nat (seq 0 n))
                else map (fun v => v * step) (map of_nat (seq 0 n)))
               = map (fun i => INR i * step) (seq 0 n)).
  { rewrite !map_map. unfold Reqb. destruct (Req_dec_T step 0) as [Hz|_].
    - apply map_ext. intros i. rewrite of_nat_R.
      assert (stop - start = 0) as ->; [|rewrite Hz; ring].
      unfold step, Rdiv in Hz. apply Rmult_integral in Hz as [?|Hi]; [done|].
      by apply Rinv_neq_0_compat in Hi.
    - apply map_ext. intros i. by rewrite of_nat_R. }
  rewrite Hy, map_map. f_equal.
  apply list_insert_id.
  change (map ?f ?l) with (f <$> l).
  rewrite list_lookup_fmap, lookup_seq_lt by lia. cbn. f_equal.
  unfold step. field. done.
Qed.

Lemma Q2R_2pi : Q2R 2 * PI = 2 * PI.
Proof. by rewrite Q2R_2. Qed.

Lemma generate_ellipse_track_R (a b : R) (n : nat) :
  (2 ≤ n)%nat →
  generate_ellipse_track a b (Z.of_nat n)
  = Ret (map (fun i => (a * cos (INR i * (2 * PI / INR (Nat.pred n))),
                        b * sin (INR i * (2 * PI / INR (Nat.pred n))))) (seq 0 n)).
Proof.
  intros Hn. unfold generate_ellipse_track.
  cbn [lit fmul fpi fcos fsin R_ops]. rewrite Q2R_0, Q2R_2.
  rewrite linspace_R by done. cbn [mbind outcome_bind].
  rewrite zip_map, map_map. f_equal. apply map_ext. intros i.
  replace (INR i * ((2 * PI - 0) / INR (Nat.pred n)) + 0)
    with (INR i * (2 * PI / INR (Nat.pred n))); [done|].
  unfold Rdiv. ring.
Qed.
End RealTracks.

Section TrackClaims.
Local Open Scope R_scope.

(** X17.  [generate_circular_track] raises for a negative number of points;
    when it returns, it returns that many points, all at distance [radius]
    from the origin. *)
Theorem circular_track_on_circle (r : R) (num : Z) :
  ((num < 0)%Z → is_Raise (generate_circular_track r num))
  ∧ ∀ pts, generate_circular_track r num = Ret pts →
      length pts = Z.to_nat num
      ∧ Forall (fun p => p.1 * p.1 + p.2 * p.2 = r * r) pts.
Proof.
  split.
  - intros Hn. unfold generate_circular_track.
    pose proof (linspace_negative (lit 0) (lit 2 * fpi)%flt num Hn) as Hl.
    destruct (np.linspace _ _ _); [done|exact I].
  - intros pts Hpts. rewrite generate_circular_track_ellipse in Hpts.
    apply generate_ellipse_track_Ret in Hpts as (angles & Ha & ->).
    apply linspace_length in Ha. split; [by rewrite length_map|].
    change (map ?f ?l) with (f <$> l). apply Forall_fmap, Forall_true.
    intros t. cbn [compose fst snd fmul fcos fsin R_ops].
    pose proof (unit_circle t). nra.
Qed.

Lemma circular_track_on_circle_witness :
  is_Raise (generate_circular_track 50 (-1))
  ∧ ∃ pts, generate_circular_track 50 3 = Ret pts
      ∧ length pts = Z.to_nat 3
      ∧ Forall (fun p => p.1 * p.1 + p.2 * p.2 = 50 * 50) pts.
Proof.
  split.
  - apply (circular_track_on_circle 50 (-1)). lia.
  - eexists. split; [reflexivity|].
    apply (circular_track_on_circle 50 3). reflexivity.
Defined.

(** X18.  For two points or more [generate_ellipse_track] returns a closed
    curve on the ellipse: it has the number of points asked for, starts and
    ends at [(semi_minor, 0)], and every point satisfies the equation of the
    ellipse with semi-axis [semi_minor] along x and [semi_major] along y. *)
Theorem ellipse_track_closed (a b : R) (n : nat) :
  (2 ≤ n)%nat →
  ∃ pts, generate_ellipse_track a b (Z.of_nat n) = Ret pts
    ∧ length pts = n
    ∧ head pts = Some (a, 0)
    ∧ last pts = Some (a, 0)
    ∧ Forall (fun p => (b * p.1) * (b * p.1) + (a * p.2) * (a * p.2) = (a * b) * (a * b)) pts.
Proof.
  intros Hn. eexists. split; [by apply generate_ellipse_track_R|].
  assert (Hd : INR (Nat.pred n) ≠ 0) by (apply not_0_INR; lia).
  split; [by rewrite length_map, length_seq|].
  change (map ?f ?l) with (f <$> l).
  split; [|split].
  - destruct n as [|n]; [lia|]. cbn [seq fmap list_fmap head].
    replace (INR 0 * (2 * PI / INR (Nat.pred (S n)))) with 0 by (cbn [INR]; ring).
    rewrite cos_0, sin_0. do 2 f_equal; ring.
  - rewrite fmap_last, last_lookup, length_seq, lookup_seq_lt by lia. cbn [fmap option_fmap option_map].
    replace (INR (0 + Nat.pred n) * (2 * PI / INR (Nat.pred n))) with (2 * PI)
      by (cbn [Nat.add]; field; done).
    rewrite cos_2PI, sin_2PI. do 2 f_equal; ring.
  - apply Forall_fmap, Forall_true. intros i. cbn [compose fst snd].
    pose proof (unit_circle (INR i * (2 * PI / INR (Nat.pred n)))). nra.
Qed.

Lemma ellipse_track_closed_witness :
  (2 ≤ 4)%nat
  ∧ ∃ pts, generate_ellipse_track 60 30 (Z.of_nat 4) = Ret pts
      ∧ length pts = 4%nat
      ∧ head pts = Some (60, 0)
      ∧ last pts = Some (60, 0)
      ∧ Forall (fun p => (30 * p.1) * (30 * p.1) + (60 * p.2) * (60 * p.2)
                         = (60 * 30) * (60 * 30)) pts.
Proof.
  assert (Hn : (2 ≤ 4)%nat) by lia.
  split; [exact Hn|]. exact (ellipse_track_closed 60 30 4 Hn).
Defined.
End TrackClaims.

(** ** A generated track as waypoints *)

Section TrackSpline.
Context `{Interpolant R}.
Local Open Scope R_scope.

Lemma generate_circular_track_R (r : R) (n : nat) :
  (2 ≤ n)%nat →
  generate_circular_track r (Z.of_nat n) = Ret (map (circle_point r n) (seq 0 n)).
Proof.
  intros Hn. rewrite generate_circular_track_ellipse. by apply generate_ellipse_track_R.
Qed.

Lemma circle_point_lookup (r : R) (n i : nat) (p : R * R) :
  map (circle_point r n) (seq 0 n) !! i = Some p → p = circle_point r n i ∧ (i < n)%nat.
Proof.
  intros Hp. assert (Hi : (i < n)%nat).
  { apply lookup_lt_Some in Hp. by rewrite length_map, length_seq in Hp. }
  change (map ?f ?l) with (f <$> l) in Hp.
  rewrite list_lookup_fmap, lookup_seq_lt in Hp by done.
  by injection Hp as <-.
Qed.

Lemma circular_track_non_degenerate (r : R) (n : nat) :
  (3 ≤ n)%nat → r ≠ 0 → non_degenerate (map (circle_point r n) (seq 0 n)).
Proof.
  intros Hn Hr i p q Hp Hq.
  apply circle_point_lookup in Hp as [-> _]. apply circle_point_lookup in Hq as [-> Hi].
  unfold circle_point. rewrite S_INR. intros [= Hc Hs].
  apply Rmult_eq_reg_l in Hc; [|done]. apply Rmult_eq_reg_l in Hs; [|done].
  set (step := 2 * PI / INR (Nat.pred n)) in *.
  pose proof PI_RGT_0 as Hpi.
  assert (H2 : 2 <= INR (Nat.pred n)).
  { change 2 with (INR 2). apply le_INR. lia. }
  assert (Hstep : 0 < step <= PI).
  { assert (/ INR (Nat.pred n) <= / 2) by (apply Rinv_le_contravar; lra).
    assert (0 < / INR (Nat.pred n)) by (apply Rinv_0_lt_compat; lra).
    unfold step, Rdiv. split; nra. }
  assert (Hcos : cos step = 1).
  { replace step with ((INR i + 1) * step - INR i * step) at 1 by ring.
    rewrite cos_minus, <- Hc, <- Hs. apply unit_circle. }
  pose proof (cos_decreasing_1 0 step) as Hdec. rewrite cos_0 in Hdec. lra.
Qed.

(** X19.  The points of [generate_circular_track] as waypoints of
    [generate_cubic_spline]: with at most one point the construction raises;
    with three points or more, a radius other than 0 and a step other than
    0, no two consecutive points coincide and the construction succeeds. *)
Theorem circular_track_spline (r ds : R) (n : nat) (pts : list (R * R)) :
  generate_circular_track r (Z.of_nat n) = Ret pts →
  ((n ≤ 1)%nat → is_Raise (generate_cubic_spline (xs pts) (ys pts) ds "natural"))
  ∧ ((3 ≤ n)%nat → r ≠ 0 → ds ≠ 0 →
     non_degenerate pts
     ∧ ∃ cx cy yaw k,
         generate_cubic_spline (xs pts) (ys pts) ds "natural" = Ret (cx, cy, yaw, k)).
Proof.
  intros Hpts. split.
  - intros Hn. rewrite generate_circular_track_ellipse in Hpts.
    apply generate_ellipse_track_Ret in Hpts as (angles & Ha & ->).
    apply linspace_length in Ha. rewrite Nat2Z.id in Ha.
    set (pts := map _ angles).
    assert (Hlen : (length pts < 2)%nat) by (unfold pts; rewrite length_map; lia).
    destruct (Req_dec_T ds 0) as [->|Hds].
    + pose proof (initialise_cubic_spline_R_zero pts "natural") as Hz.
      destruct (initialise_cubic_spline _ _ _ _) as [?|e] eqn:Hi; [done|].
      by rewrite (generate_Raise _ _ _ _ _ Hi).
    + by rewrite (generate_Raise _ _ _ _ _
                    (initialise_cubic_spline_short _ ds "natural" Hlen Hds)).
  - intros Hn Hr Hds. rewrite generate_circular_track_R in Hpts by lia.
    injection Hpts as <-.
    pose proof (circular_track_non_degenerate r n Hn Hr) as Hnd. split; [done|].
    assert (Hlen : (2 ≤ length (map (circle_point r n) (seq 0 n)))%nat)
      by (rewrite length_map, length_seq; lia).
    assert (Hinit := initialise_cubic_spline_fits _ ds "natural" Hlen Hnd Hds eq_refl).
    do 4 eexists. exact (generate_cubic_spline_eq _ _ _ _ _ _ Hinit).
Qed.
End TrackSpline.

Section TrackSplineWitness.
Local Open Scope R_scope.

Lemma circular_track_spline_witness :
  ∃ pts1 pts3,
    generate_circular_track 50 (Z.of_nat 1) = Ret pts1
    ∧ generate_circular_track 50 (Z.of_nat 3) = Ret pts3
    ∧ is_Raise (generate_cubic_spline (xs pts1) (ys pts1) 1 "natural")
    ∧ (non_degenerate pts3
       ∧ ∃ cx cy yaw k,
           generate_cubic_spline (xs pts3) (ys pts3) 1 "natural" = Ret (cx, cy, yaw, k)).
Proof.
  do 2 eexists. split; [reflexivity|]. split; [reflexivity|]. split.
  - apply (circular_track_spline 50 1 1 _ eq_refl). lia.
  - apply (circular_track_spline 50 1 3 _ eq_refl); [lia|lra|lra].
Defined.
End TrackSplineWitness.

(** ** [CircularPath] *)

Section ZipStar.
Context {A : Type}.

Lemma tail_length (l : list A) : length (tail l) = Nat.pred (length l).
Proof. by destruct l. Qed.

Lemma mapM_head_Some (rows : list (list A)) (column : list A) :
  mapM head rows = Some column →
  length column = length rows ∧ Forall (fun r => (1 ≤ length r)%nat) rows.
Proof.
  intros Hm. split; [symmetry; by eapply length_mapM|].
  apply mapM_Some_1 in Hm. induction Hm as [|r a rows col Hr _ IH]; [done|].
  constructor; [|done]. destruct r; [done|simpl; lia].
Qed.

Lemma zip_star_n_shape (n : nat) (rows : list (list A)) :
  Forall (fun c => length c = length rows) (zip_star_n n rows)
  ∧ Forall (fun r => (length (zip_star_n n rows) ≤ length r)%nat) rows.
Proof.
  revert rows. induction n as [|n IH]; intros rows.
  - split; [done|]. apply Forall_true. intros r. simpl. lia.
  - cbn [zip_star_n]. destruct (mapM head rows) as [column|] eqn:Hm.
    + apply mapM_head_Some in Hm as [Hlen Hne].
      destruct (IH (map tail rows)) as [Hc Hr]. split.
      * constructor; [done|]. rewrite length_map in Hc. done.
      * apply Forall_forall. intros r Hin.
        pose proof (proj1 (Forall_forall _ _) Hne r Hin) as H1.
        assert (tail r ∈ map tail rows) as Hin'.
        { change (map tail rows) with (tail <$> rows). by apply list_elem_of_fmap_2. }
        pose proof (proj1 (Forall_forall _ _) Hr (tail r) Hin') as H2.
        simpl in *. rewrite tail_length in H2. lia.
    + split; [done|]. apply Forall_true. intros r. simpl. lia.
Qed.

Lemma zip_star_shape (rows : list (list A)) :
  Forall (fun c => length c = length rows) (zip_star rows)
  ∧ Forall (fun r => (length (zip_star rows) ≤ length r)%nat) rows.
Proof.
  destruct rows as [|r rows]; [done|]. apply zip_star_n_shape.
Qed.
End ZipStar.

Section CircularPathFacts.
Context `{FloatOps F} `{Interpolant F}.
Variable float : string → outcome F.
Local Open Scope flt_scope.

Lemma mapM_outcome_length {A B} (f : A → outcome B) (l : list A) (k : list B) :
  mapM f l = Ret k → length k = length l.
Proof.
  revert k. induction l as [|a l IH]; intros k.
  - by intros [= <-].
  - cbn [mapM]. intros (b & _ & Hrest)%bind_Ret_inv.
    apply bind_Ret_inv in Hrest as (k' & Hk' & [= <-]).
    simpl. f_equal. by apply IH.
Qed.

Lemma mapM_mapM_shape (cols : list (list string)) (parsed : list (list F)) (n : nat) :
  mapM (mapM float) cols = Ret parsed →
  Forall (fun c => length c = n) cols →
  length parsed = length cols ∧ Forall (fun c => length c = n) parsed.
Proof.
  revert parsed. induction cols as [|c cols IH]; intros parsed.
  - by intros [= <-].
  - cbn [mapM]. intros (b & Hb & Hrest)%bind_Ret_inv Hall.
    apply bind_Ret_inv in Hrest as (k' & Hk' & [= <-]).
    apply Forall_cons in Hall as [Hc Hall].
    destruct (IH k' Hk' Hall) as [Hl Hf]. split; [simpl; by rewrite Hl|].
    constructor; [|done]. apply mapM_outcome_length in Hb. congruence.
Qed.

Lemma CircularPath_init_Ret (radius width : F) (rows : list (list string))
    (p : option (CircularPath.attrs (F := F))) :
  CircularPath.__init__ float radius width rows true = Ret p →
  ∃ x y cx cy yaw k s,
    mapM (mapM float) (zip_star (tail rows)) = Ret [x; y]
    ∧ generate_cubic_spline x y (lit 0.05) "natural" = Ret (cx, cy, yaw, k)
    ∧ np.linspace (lit 0) (lit 2 * fpi * radius) (Z.of_nat (length cx)) = Ret s
    ∧ p = Some {| CircularPath.x_t := cx; CircularPath.y_t := cy;
                  CircularPath.yaw_t := yaw; CircularPath.k := k;
                  CircularPath.radius := radius;
                  CircularPath.length := lit 2 * fpi * radius;
                  CircularPath.s := s; CircularPath.width := width |}.
Proof.
  unfold CircularPath.__init__.
  intros (cols & Hcols & Hrest)%bind_Ret_inv.
  apply bind_Ret_inv in Hrest as ([x y] & Hxy & Hrest).
  apply bind_Ret_inv in Hrest as ([[[cx cy] yaw] k] & Hgen & Hrest).
  apply bind_Ret_inv in Hrest as (s & Hs & [= <-]).
  exists x, y, cx, cy, yaw, k, s.
  assert (cols = [x; y]) as ->.
  { unfold CircularPath.unpack_xy in Hxy.
    destruct cols as [|a [|b [|c cols]]]; simpl in Hxy; try discriminate.
    by injection Hxy as -> ->. }
  done.
Qed.

(** X20.  When [CircularPath] is constructed from a track file, the file
    had a header line and at least two data lines, every data line had at
    least two cells, the arrays [x_t], [y_t], [yaw_t], [k] and [s] have the
    same length, and [length] is [2 pi radius]. *)
Theorem CircularPath_constructed (radius width : F) (rows : list (list string))
    (p : option (CircularPath.attrs (F := F))) :
  CircularPath.__init__ float radius width rows true = Ret p →
  ∃ path, p = Some path
    ∧ (3 ≤ length rows)%nat
    ∧ Forall (fun row => (2 ≤ length row)%nat) (tail rows)
    ∧ length (CircularPath.y_t path) = length (CircularPath.x_t path)
    ∧ length (CircularPath.yaw_t path) = length (CircularPath.x_t path)
    ∧ length (CircularPath.k path) = length (CircularPath.x_t path)
    ∧ length (CircularPath.s path) = length (CircularPath.x_t path)
    ∧ CircularPath.radius path = radius
    ∧ CircularPath.width path = width
    ∧ CircularPath.length path = lit 2 * fpi * radius.
Proof.
  intros (x & y & cx & cy & yaw & k & s & Hcols & Hgen & Hs & ->)%CircularPath_init_Ret.
  eexists. split; [reflexivity|]. cbn.
  destruct (zip_star_shape (tail rows)) as [Hc Hr].
  destruct (mapM_mapM_shape _ _ _ Hcols Hc) as [Hl Hp]. simpl in Hl.
  apply Forall_cons in Hp as [Hx _].
  apply generate_cubic_spline_Ret_shape in Hgen as (Hyx & H2 & Hcy & Hyaw & Hk).
  apply linspace_length in Hs. rewrite Nat2Z.id in Hs.
  split; [rewrite tail_length in Hx; lia|].
  split; [by rewrite <- Hl in Hr|].
  done.
Qed.

(** X21.  [CircularPath] raises on a track file with fewer than two data
    lines after the header, or with a data line of fewer than two cells. *)
Theorem CircularPath_unusable_file (radius width : F) (rows : list (list string)) :
  (length rows ≤ 2)%nat ∨ Exists (fun row => (length row < 2)%nat) (tail rows) →
  is_Raise (CircularPath.__init__ float radius width rows true).
Proof.
  intros Hbad.
  destruct (CircularPath.__init__ float radius width rows true) as [p|e] eqn:Hp; [|exact I].
  apply CircularPath_init_Ret in Hp
    as (x & y & cx & cy & yaw & k & s & Hcols & Hgen & Hs & ->).
  destruct (zip_star_shape (tail rows)) as [Hc Hr].
  destruct (mapM_mapM_shape _ _ _ Hcols Hc) as [Hl Hp]. simpl in Hl.
  apply Forall_cons in Hp as [Hx _].
  apply generate_cubic_spline_Ret_shape in Hgen as (Hyx & H2 & _).
  rewrite tail_length in Hx. rewrite <- Hl in Hr.
  destruct Hbad as [Hshort|Hex]; [lia|].
  apply Exists_exists in Hex as (row & Hin & Hrow).
  pose proof (proj1 (Forall_forall _ _) Hr row Hin) as Hge. simpl in Hge. lia.
Qed.
End CircularPathFacts.

Section CircularPathExamples.
Local Open Scope R_scope.

Lemma example_rows_Ret :
  ∃ p, CircularPath.__init__ float_example 50 3 example_rows true = Ret p.
Proof.
  unfold CircularPath.__init__, example_rows. cbn [tail zip_star].
  change (mapM (mapM float_example) _) with
    (Ret [xs two_waypoints; ys two_waypoints]).
  cbn [mbind outcome_bind CircularPath.unpack_xy].
  assert (lit (F := R) 0.05 ≠ 0) as Hds.
  { cbn [lit R_ops]. unfold Q2R. simpl. lra. }
  rewrite (generate_cubic_spline_eq _ _ _ _ _ _
    (initialise_cubic_spline_fits two_waypoints _ "natural"
       ltac:(simpl; lia) two_waypoints_non_degenerate Hds eq_refl)).
  cbn [mbind outcome_bind].
  match goal with
  | |- context [np.linspace ?a ?b ?n] =>
      destruct (linspace_Ret a b n) as [l ->]; [lia|]
  end.
  cbn [mbind outcome_bind]. eauto.
Qed.

Lemma CircularPath_constructed_witness :
  ∃ p, CircularPath.__init__ float_example 50 3 example_rows true = Ret p
    ∧ ∃ path, p = Some path
      ∧ (3 ≤ length example_rows)%nat
      ∧ Forall (fun row => (2 ≤ length row)%nat) (tail example_rows)
      ∧ length (CircularPath.y_t path) = length (CircularPath.x_t path)
      ∧ length (CircularPath.yaw_t path) = length (CircularPath.x_t path)
      ∧ length (CircularPath.k path) = length (CircularPath.x_t path)
      ∧ length (CircularPath.s path) = length (CircularPath.x_t path)
      ∧ CircularPath.radius path = 50
      ∧ CircularPath.width path = 3
      ∧ CircularPath.length path = lit 2 * fpi * 50.
Proof.
  destruct example_rows_Ret as [p Hp]. exists p. split; [exact Hp|].
  exact (CircularPath_constructed float_example 50 3 example_rows p Hp).
Defined.

Lemma CircularPath_unusable_file_witness :
  is_Raise (CircularPath.__init__ float_example 50 3 [["X-axis"; "Y-axis"]] true).
Proof.
  apply (CircularPath_unusable_file float_example 50 3 [["X-axis"; "Y-axis"]]).
  left. simpl. lia.
Defined.
End CircularPathExamples.
